(** * syz-extract and the flatrpc wire schema: a shallow embedding

    The development follows [sys/syz-extract/extract.go] and the two message
    unions and the flag enums of [pkg/flatrpc/flatrpc.fbs].

    - Go strings are byte sequences: they are Rocq [string]s, one [ascii] per
      byte.  [uint64] values are [N], bounded by [2^64] where a statement
      needs the bound.
    - Go maps are stdpp [gmap]s.  The order in which [range] visits a map is
      not specified by the language; it is supplied by a [Runtime], of which
      nothing but that every entry comes once is known.  [sort.Sort] is
      supplied by the [Runtime] too, with its documented contract.
    - [main] runs in a small process monad that records the calls it makes
      to the outside world ([World]) and stops at [os.Exit].  [main] is the
      body of [func main()] from line 41 on, a function of the values
      [flag.Parse()] has given the flag variables; [syz_extract] is the
      whole of it, [flag.Parse()] and the exits of package [flag] included.

    The file has three parts: the program, the vocabulary of the statements
    proved about it, and the proofs; the proofs end with further properties
    of [main], [compileConsts], [isIdentifier], [generateConsts], the
    methods of [NameValueArray] and the flag enums of the schema. *)

From Stdlib Require Import ZArith NArith Ascii Zbitwise.
From Stdlib Require String.
From stdpp Require Import base option list sorting gmap strings.

Local Open Scope Z_scope.

(* ===================================================================== *)
(** * Byte strings, as package [strings] handles them *)
(* ===================================================================== *)

Module GoString.

(** [len(s)] *)
Definition len (s : string) : nat := String.length s.

(** [s[a:b]], for [a <= b <= len(s)] *)
Definition slice (s : string) (a b : nat) : string :=
  String.substring a (b - a) s.

(** [s == t] *)
Definition eq (s t : string) : bool := String.eqb s t.

(** [strings.HasPrefix]:
    [len(s) >= len(prefix) && s[0:len(prefix)] == prefix] *)
Definition HasPrefix (s prefix : string) : bool :=
  (len prefix <=? len s)%nat && eq (slice s 0 (len prefix)) prefix.

(** [strings.HasSuffix]:
    [len(s) >= len(suffix) && s[len(s)-len(suffix):] == suffix] *)
Definition HasSuffix (s suffix : string) : bool :=
  (len suffix <=? len s)%nat
  && eq (slice s (len s - len suffix) (len s)) suffix.

(** [strings.TrimSuffix] *)
Definition TrimSuffix (s suffix : string) : string :=
  if HasSuffix s suffix then slice s 0 (len s - len suffix) else s.

(** The line feed, written [\n] in a Go string literal. *)
Definition newline : string := String "010"%char EmptyString.

(** [s < t] on strings: byte-wise lexicographic order *)
Definition lt (s t : string) : bool := String.ltb s t.

End GoString.

(* ===================================================================== *)
(** * The output path, [main] lines 58-59 *)
(* ===================================================================== *)

(** [outname := strings.TrimSuffix(inname, ".txt") + "_" + *flagArch + ".const"] *)
Definition outname (inname arch : string) : string :=
  GoString.TrimSuffix inname ".txt" +:+ "_" +:+ arch +:+ ".const".

(** ** The path the specification describes

    The specification derives the output path by "removing the input
    file's extension".  The extension of a path is what [path/filepath.Ext]
    returns: the suffix beginning at the final dot in the final
    slash-separated element of the path, empty if there is no dot. *)
Module SpecPath.

(** The backward scan of [filepath.Ext]; [n] is the loop index plus one. *)
Fixpoint Ext_scan (path : string) (n : nat) : string :=
  match n with
  | O => ""
  | S i =>
      match String.get i path with
      | Some c =>
          if Ascii.eqb c "/" then ""
          else if Ascii.eqb c "." then GoString.slice path i (GoString.len path)
          else Ext_scan path i
      | None => ""
      end
  end.

Definition Ext (path : string) : string :=
  Ext_scan path (GoString.len path).

(** The path without its extension. *)
Definition without_ext (path : string) : string :=
  GoString.slice path 0 (GoString.len path - GoString.len (Ext path)).

(** [<input-without-extension>_<arch>.const] *)
Definition outname_spec (inname arch : string) : string :=
  without_ext inname +:+ "_" +:+ arch +:+ ".const".

End SpecPath.

(* ===================================================================== *)
(** * What the Go runtime and standard library contribute *)
(* ===================================================================== *)

(** [NameValue] and [NameValueArray], with the three methods that make the
    latter a [sort.Interface].  [sort] calls [Less] and [Swap] with indices
    below [Len()] only; at other indices, where Go panics, [Less] is [false]
    here and [Swap] changes nothing. *)
Record NameValue := mkNameValue { name : string; val : N }.

Abbreviation NameValueArray := (list NameValue).

Module NameValueArray.

(** [func (a NameValueArray) Len() int { return len(a) }] *)
Definition Len (a : NameValueArray) : nat := length a.

(** [func (a NameValueArray) Less(i, j int) bool { return a[i].name < a[j].name }] *)
Definition Less (a : NameValueArray) (i j : nat) : bool :=
  match a !! i, a !! j with
  | Some x, Some y => GoString.lt (name x) (name y)
  | _, _ => false
  end.

(** [func (a NameValueArray) Swap(i, j int) { a[i], a[j] = a[j], a[i] }] *)
Definition Swap (a : NameValueArray) (i j : nat) : NameValueArray :=
  match a !! i, a !! j with
  | Some x, Some y => <[j:=x]> (<[i:=y]> a)
  | _, _ => a
  end.

End NameValueArray.

(** The two things [extract.go] takes from outside its own text and whose
    result is not a function of the program alone:

    - the order in which [for k, v := range m] visits the entries of a map
      [m], which the language leaves unspecified: each entry is visited
      exactly once;
    - [sort.Sort], documented to sort its argument "in ascending order as
      determined by the Less method", without promising stability: the
      result is a rearrangement of the argument in which no element is
      [Less] than one before it. *)
Record Runtime := {
  range_map : ∀ {K} `{Countable K} {V}, gmap K V → list (K * V);
  range_map_perm :
    ∀ K `{Countable K} V (m : gmap K V), range_map m ≡ₚ map_to_list m;
  sort_Sort : NameValueArray → NameValueArray;
  sort_Sort_perm : ∀ a, sort_Sort a ≡ₚ a;
  sort_Sort_sorted :
    ∀ a i j, (i < j < NameValueArray.Len (sort_Sort a))%nat →
             NameValueArray.Less (sort_Sort a) j i = false
}.

(** ** [sort]: insertion sort

    [insertionSort] of package [sort], the algorithm [sort.Sort] ends with
    on a short slice, here over the whole slice.  It uses nothing but the
    three methods of the interface:
    [for i := 1; i < n; i++ {
       for j := i; j > 0 && data.Less(j, j-1); j-- { data.Swap(j, j-1) } }] *)
Fixpoint insertionSort_inner (a : NameValueArray) (j : nat) : NameValueArray :=
  match j with
  | O => a
  | S j' =>
      if NameValueArray.Less a j j' then
        insertionSort_inner (NameValueArray.Swap a j j') j'
      else a
  end.

Definition insertionSort (a : NameValueArray) : NameValueArray :=
  foldl insertionSort_inner a (seq 1 (NameValueArray.Len a - 1)).

(** ** [fmt]: the verb [%v] on a [uint64]

    [fmt] formats an unsigned integer in base ten by filling a buffer from
    its end:
    [for u >= 10 { i--; next := u / 10; buf[i] = byte('0' + u - next*10); u = next }]
    [i--; buf[i] = digits[u]]. *)
Module fmt.

Definition digit (d : N) : ascii := ascii_of_N (48 + d).

(** [fuel] bounds the number of digits; [buf] is the part of the buffer
    already filled. *)
Fixpoint fmtInteger_loop (fuel : nat) (u : N) (buf : string) : string :=
  match fuel with
  | O => buf
  | S fuel' =>
      if (10 <=? u)%N then
        let next := (u / 10)%N in
        fmtInteger_loop fuel' next (String (digit (u - next * 10)) buf)
      else String (digit u) buf
  end.

(** A [uint64] has at most twenty decimal digits. *)
Definition fmtUint64 (u : N) : string := fmtInteger_loop 20 u "".

End fmt.

(** ** [unicode/utf8] and [range] over a string

    [for i, c := range s] decodes [s] as UTF-8: [c] is the code point that
    starts at byte index [i]; an invalid sequence yields [RuneError] and
    advances by one byte. *)
Module utf8.

Definition RuneError : Z := 0xFFFD.

Definition byte (c : ascii) : Z := Z.of_N (N_of_ascii c).

(** [s[i]], for [i < len(s)] *)
Definition at_ (s : string) (i : nat) : Z :=
  match String.get i s with Some c => byte c | None => 0 end.

Definition maskx : Z := 0x3F.
Definition mask2 : Z := 0x1F.
Definition mask3 : Z := 0x0F.
Definition mask4 : Z := 0x07.
Definition locb : Z := 0x80.
Definition hicb : Z := 0xBF.

Definition xx : Z := 0xF1.
Definition as_ : Z := 0xF0.
Definition s1 : Z := 0x02.
Definition s2 : Z := 0x13.
Definition s3 : Z := 0x03.
Definition s4 : Z := 0x23.
Definition s5 : Z := 0x34.
Definition s6 : Z := 0x04.
Definition s7 : Z := 0x44.

(** The table [first]: information about the first byte of an encoding. *)
Definition first (b : Z) : Z :=
  if b <? 0x80 then as_
  else if b <? 0xC2 then xx
  else if b <? 0xE0 then s1
  else if b =? 0xE0 then s2
  else if b <? 0xED then s3
  else if b =? 0xED then s4
  else if b <? 0xF0 then s3
  else if b =? 0xF0 then s5
  else if b <? 0xF4 then s6
  else if b =? 0xF4 then s7
  else xx.

(** The table [acceptRanges]: the range allowed for the second byte. *)
Definition acceptRanges (k : Z) : Z * Z :=
  if k =? 0 then (locb, hicb)
  else if k =? 1 then (0xA0, hicb)
  else if k =? 2 then (locb, 0x9F)
  else if k =? 3 then (0x90, hicb)
  else if k =? 4 then (locb, 0x8F)
  else (0, 0).

(** [utf8.DecodeRuneInString]: the code point and its width in bytes. *)
Definition DecodeRuneInString (s : string) : Z * nat :=
  let n := GoString.len s in
  if (n <? 1)%nat then (RuneError, 0%nat) else
  let s0 := at_ s 0 in
  let x := first s0 in
  if as_ <=? x then
    let mask := if Z.odd x then -1 else 0 in
    (Z.lor (Z.land s0 (Z.lnot mask)) (Z.land RuneError mask), 1%nat)
  else
  let sz := Z.to_nat (Z.land x 7) in
  let accept := acceptRanges (Z.shiftr x 4) in
  if (n <? sz)%nat then (RuneError, 1%nat) else
  let b1 := at_ s 1 in
  if (b1 <? fst accept) || (snd accept <? b1) then (RuneError, 1%nat) else
  if (sz <=? 2)%nat then
    (Z.lor (Z.shiftl (Z.land s0 mask2) 6) (Z.land b1 maskx), 2%nat)
  else
  let b2 := at_ s 2 in
  if (b2 <? locb) || (hicb <? b2) then (RuneError, 1%nat) else
  if (sz <=? 3)%nat then
    (Z.lor (Z.lor (Z.shiftl (Z.land s0 mask3) 12)
                  (Z.shiftl (Z.land b1 maskx) 6))
           (Z.land b2 maskx), 3%nat)
  else
  let b3 := at_ s 3 in
  if (b3 <? locb) || (hicb <? b3) then (RuneError, 1%nat) else
  (Z.lor (Z.lor (Z.lor (Z.shiftl (Z.land s0 mask4) 18)
                       (Z.shiftl (Z.land b1 maskx) 12))
                (Z.shiftl (Z.land b2 maskx) 6))
         (Z.land b3 maskx), 4%nat).

(** The pairs [(i, c)] that [for i, c := range s] goes through.  [skip]
    counts the bytes still belonging to the code point decoded last;
    [i] is the byte index of the head of [s]. *)
Fixpoint range_from (skip i : nat) (s : string) : list (nat * Z) :=
  match s with
  | EmptyString => []
  | String _ rest =>
      match skip with
      | S k => range_from k (S i) rest
      | O =>
          let (c, w) := DecodeRuneInString s in
          (i, c) :: range_from (w - 1) (S i) rest
      end
  end.

Definition range_string (s : string) : list (nat * Z) := range_from 0 0 s.

End utf8.

(* ===================================================================== *)
(** * The process: calls to the outside world, and [os.Exit] *)
(* ===================================================================== *)

(** A Go call returning [(T, error)]. *)
Inductive result (A : Type) : Type :=
| Ok (a : A)
| Err (msg : string).
Arguments Ok {A} a.
Arguments Err {A} msg.

(** The command line after [flag.Parse]: the four flag variables and
    [flag.Args()]. *)
Record CmdLine := mkCmdLine {
  flagLinux : string;
  flagLinuxBld : string;
  flagArch : string;
  flagV : Z;
  Args : list string
}.

(** [type Arch struct] *)
Record Arch := mkArch {
  CARCH : list string;
  KernelHeaderArch : string;
  KernelInclude : string;
  CFlags : list string
}.

(** Modelled from the spec: package [sysparser] is imported by
    [extract.go] but its declarations are not among the sources.  The
    records below have the fields [compileConsts] reads, with the types its
    loops and the call of [fetchValues] require: [Flags] and [Resources]
    are ranged over for their values, [Defines] for its keys. *)
Record Syscall := mkSyscall { CallName : string }.

Record Resource := mkResource { Values : list string }.

Record Description := mkDescription {
  Includes : list string;
  Incdirs : list string;
  Defines : gmap string string;
  Syscalls : list Syscall;
  Flags : gmap string (list string);
  Resources : gmap string Resource
}.

(** The arguments of one call of [fetchValues], together with the flag
    variables, which are package-level and visible to it. *)
Record FetchCall := mkFetchCall {
  fc_flags : CmdLine;
  fc_arch : string;
  fc_vals : list string;
  fc_includes : list string;
  fc_incdirs : list string;
  fc_defines : gmap string string;
  fc_cflags : list string
}.

(** What lies outside [extract.go]: the file system, the parser of package
    [sysparser], the resolver [fetchValues] (which runs the C compiler), and
    [osutil.WriteFile].  [os_Open] yields the bytes that reading the opened
    file gives.  The four are taken to return to their caller: what they
    print themselves is not part of a trace. *)
Record World := mkWorld {
  os_Open : string → result string;
  Parse : string → Description;
  fetchValues : FetchCall → result (gmap string N);
  osutil_WriteFile : string → string → option string
}.

(** What a run does that can be seen from outside, in order. *)
Inductive event : Type :=
| Stderr (text : string)
| Open (name : string) (res : result string)
| FetchValues (call : FetchCall) (res : result (gmap string N))
| WriteFile (name data : string) (err : option string).

(** A computation either returns a value or has called [os.Exit(code)];
    in both cases it has produced a trace of events. *)
Inductive outcome (A : Type) : Type :=
| Returned (a : A)
| Exited (code : Z).
Arguments Returned {A} a.
Arguments Exited {A} code.

Definition Proc (A : Type) : Type := (list event * outcome A)%type.

Definition Proc_ret {A} (a : A) : Proc A := ([], Returned a).

Definition Proc_bind {A B} (f : A → Proc B) (m : Proc A) : Proc B :=
  match m with
  | (t, Returned a) => let (t', r) := f a in (t ++ t', r)
  | (t, Exited c) => (t, Exited c)
  end.

#[export] Instance Proc_mret : MRet Proc := @Proc_ret.
#[export] Instance Proc_mbind : MBind Proc := @Proc_bind.

Definition emit (e : event) : Proc unit := ([e], Returned tt).

Definition os_Exit {A} (code : Z) : Proc A := ([], Exited code).

(** The trace of a run and the exit status of the process: [0] when
    [main] returns. *)
Definition trace {A} (p : Proc A) : list event := fst p.

Definition exit_status {A} (p : Proc A) : Z :=
  match snd p with
  | Returned _ => 0
  | Exited c => c
  end.

(** [failf]: [fmt.Fprintf(os.Stderr, msg+"\n", args...); os.Exit(1)].
    [text] is [msg] with its arguments filled in. *)
Definition failf {A} (text : string) : Proc A :=
  emit (Stderr (text +:+ GoString.newline));; os_Exit 1.

(** [logf]: the same line on standard error when [*flagV >= v]. *)
Definition logf (cl : CmdLine) (v : Z) (text : string) : Proc unit :=
  if v <=? flagV cl then emit (Stderr (text +:+ GoString.newline)) else mret tt.

(* ===================================================================== *)
(** * [extract.go] *)
(* ===================================================================== *)

(** [var archs = map[string]*Arch{...}] *)
Definition archs : gmap string Arch :=
  <["amd64" := mkArch ["__x86_64__"] "x86" "asm/unistd.h" ["-m64"]]>
  (<["arm64" := mkArch ["__aarch64__"] "arm64" "asm/unistd.h" []]>
  (<["ppc64le" := mkArch ["__ppc64__"; "__PPC64__"; "__powerpc64__"]
                         "powerpc" "asm/unistd.h" ["-D__powerpc64__"]]> ∅)).

(** The test in the loop of [isIdentifier]:
    [c == '_' || (c >= 'a' && c <= 'z') || (c >= 'A' && c <= 'Z') ||
     i > 0 && (c >= '0' && c <= '9')] *)
Definition identifier_rune (i : nat) (c : Z) : bool :=
  (c =? 95) || ((97 <=? c) && (c <=? 122)) || ((65 <=? c) && (c <=? 90))
  || ((0 <? i)%nat && ((48 <=? c) && (c <=? 57))).

Fixpoint isIdentifier_loop (l : list (nat * Z)) : bool :=
  match l with
  | [] => true
  | (i, c) :: l' => if identifier_rune i c then isIdentifier_loop l' else false
  end.

(** [func isIdentifier(s string) bool] *)
Definition isIdentifier (s : string) : bool :=
  isIdentifier_loop (utf8.range_string s).

Section Program.

Context (rt : Runtime) (w : World).

(** [generateConsts]: lines 78-82, the sorted array of pairs. *)
Definition sorted_consts (consts : gmap string N) : NameValueArray :=
  let nv :=
    foldl (λ nv '(k, v), nv ++ [mkNameValue k v]) [] (range_map rt consts) in
  sort_Sort rt nv.

(** [func generateConsts(arch string, consts map[string]uint64, out io.Writer)].
    [out] is the content of the buffer written to; the result is its
    content afterwards. *)
Definition generateConsts (arch : string) (consts : gmap string N)
    (out : string) : string :=
  let nv := sorted_consts consts in
  let out := out +:+ "# AUTOGENERATED FILE" +:+ GoString.newline in
  foldl (λ out x, out +:+ name x +:+ " = " +:+ fmt.fmtUint64 (val x) +:+ GoString.newline)
        out nv.

(** [compileConsts], lines 91-111: the set [vals]. *)
Definition collect_vals (desc : Description) : gmap string bool :=
  let vals : gmap string bool := ∅ in
  let vals :=
    foldl (λ vals '(_, fvals), foldl (λ vals v, <[v:=true]> vals) vals fvals)
          vals (range_map rt (Flags desc)) in
  let vals :=
    foldl (λ vals '(v, _), <[v:=true]> vals) vals (range_map rt (Defines desc)) in
  let vals :=
    foldl (λ vals sc,
             if GoString.HasPrefix (CallName sc) "syz_" then vals
             else <["__NR_" +:+ CallName sc := true]> vals)
          vals (Syscalls desc) in
  let vals :=
    foldl (λ vals '(_, res),
             foldl (λ vals v, <[v:=true]> vals) vals (Values res))
          vals (range_map rt (Resources desc)) in
  vals.

(** [compileConsts], lines 113-119: the slice [valArr]. *)
Definition identifiers_of (vals : gmap string bool) : list string :=
  foldl (λ valArr '(v, _),
           if negb (isIdentifier v) then valArr else valArr ++ [v])
        [] (range_map rt vals).

(** [func compileConsts(arch *Arch, desc *Description) map[string]uint64].
    The [nil] map is the empty map. *)
Definition compileConsts (cl : CmdLine) (arch : Arch) (desc : Description)
    : Proc (gmap string N) :=
  let vals := collect_vals desc in
  let valArr := identifiers_of vals in
  if (length valArr =? 0)%nat then mret ∅ else
  let call :=
    mkFetchCall cl (KernelHeaderArch arch) valArr
                (Includes desc ++ [KernelInclude arch]) (Incdirs desc)
                (Defines desc) (CFlags arch) in
  let res := fetchValues w call in
  emit (FetchValues call res);;
  match res with
  | Err err => failf err
  | Ok consts => mret consts
  end.

(** [func main()], lines 41 to 75: what follows once [flag.Parse()] has
    returned, [cl] holding the flag variables and [flag.Args()].  The
    deferred [inf.Close()] is not recorded as an event: its result is
    discarded, it runs after the last statement when [main] returns, and
    [os.Exit] skips it. *)
Definition main (cl : CmdLine) : Proc unit :=
  (if GoString.eq (flagLinux cl) "" then
     failf "provide path to linux kernel checkout via -linux flag (or make extract LINUX= flag)"
   else mret tt);;
  cl ← (if GoString.eq (flagLinuxBld cl) "" then
          logf cl 1 "No kernel build directory provided, assuming in-place build";;
          mret (mkCmdLine (flagLinux cl) (flagLinux cl) (flagArch cl)
                          (flagV cl) (Args cl))
        else mret cl);
  (if GoString.eq (flagArch cl) "" then failf "-arch flag is required"
   else mret tt);;
  arch ← match archs !! flagArch cl with
         | None => failf ("unknown arch " +:+ flagArch cl)
         | Some arch => mret arch
         end;
  inname ← match Args cl with
           | [inname] => mret inname
           | _ => failf "usage: syz-extract -linux=/linux/checkout -arch=arch sys/input_file.txt"
           end;
  let outname := outname inname (flagArch cl) in
  let opened := os_Open w inname in
  emit (Open inname opened);;
  inf ← match opened with
        | Err err => failf ("failed to open input file: " +:+ err)
        | Ok inf => mret inf
        end;
  let desc := Parse w inf in
  consts ← compileConsts cl arch desc;
  let out := generateConsts (flagArch cl) consts "" in
  let err := osutil_WriteFile w outname out in
  emit (WriteFile outname out err);;
  match err with
  | Some err => failf ("failed to write output file: " +:+ err)
  | None => mret tt
  end.

End Program.

(** ** [flag.Parse()], line 40

    Package [flag] belongs to the standard library.  [flag.Parse()] parses
    the arguments of the process against the flags defined on
    [flag.CommandLine], whose error handling is [ExitOnError].  It either
    returns, the flag variables and [flag.Args()] set; or it prints on
    standard error and ends the process itself: with status 0 when the help
    flag ([-h], [-help]) was given, with status 2 when a flag is not defined
    or a value does not parse.  [printed] is what it wrote on standard
    error, one element for each write. *)
Inductive flag_result : Type :=
| flag_parsed (cl : CmdLine)
| flag_help (printed : list string)
| flag_failed (printed : list string).

(** The whole of [func main()]: [flag.Parse()], then lines 41 to 75.
    [args] are the arguments of the process, [os.Args[1:]]. *)
Definition syz_extract (flag_Parse : list string → flag_result)
    (rt : Runtime) (w : World) (args : list string) : Proc unit :=
  match flag_Parse args with
  | flag_parsed cl => main rt w cl
  | flag_help printed => (Stderr <$> printed, Exited 0)
  | flag_failed printed => (Stderr <$> printed, Exited 2)
  end.


(* ===================================================================== *)
(** * [flatrpc.fbs]: the two message unions *)
(* ===================================================================== *)

(** Tables and structs are records; a vector is a list, [[uint8]] a list of
    bytes; an enum declared [bit_flags] is its underlying unsigned integer;
    a field holding a table may be absent.  A field name is prefixed where
    two tables share it. *)
Module flatrpc.

(** [struct ExecOptsRaw] *)
Record ExecOptsRaw := {
  env_flags : N;
  exec_flags : N;
  sandbox_arg : Z
}.

(** [table ExecRequestRaw] *)
Record ExecRequestRaw := {
  ExecRequestRaw_id : Z;
  prog_data : list Byte.byte;
  exec_opts : ExecOptsRaw;
  ExecRequestRaw_flags : N;
  all_signal : list Z
}.

(** [table SignalUpdateRaw] *)
Record SignalUpdateRaw := { new_max : list N }.

(** [table CorpusTriagedRaw] and [table StateRequestRaw] have no fields. *)
Record CorpusTriagedRaw := { }.

Record StateRequestRaw := { }.

(** [table ExecutingMessageRaw] *)
Record ExecutingMessageRaw := {
  ExecutingMessageRaw_id : Z;
  proc_id : Z;
  try : Z;
  wait_duration : Z
}.

(** [struct ComparisonRaw] *)
Record ComparisonRaw := { op1 : N; op2 : N }.

(** [table CallInfoRaw] *)
Record CallInfoRaw := {
  CallInfoRaw_flags : N;
  CallInfoRaw_error : Z;
  signal : list N;
  cover : list N;
  comps : list ComparisonRaw
}.

(** [table ProgInfoRaw] *)
Record ProgInfoRaw := {
  calls : list CallInfoRaw;
  extra_raw : list CallInfoRaw;
  extra : option CallInfoRaw;
  elapsed : N;
  freshness : N
}.

(** [table ExecResultRaw] *)
Record ExecResultRaw := {
  ExecResultRaw_id : Z;
  output : list Byte.byte;
  ExecResultRaw_error : string;
  info : option ProgInfoRaw
}.

(** [table StateResultRaw] *)
Record StateResultRaw := { data : list Byte.byte }.

(** [union HostMessagesRaw]: messages sent from the host to the executor. *)
Inductive HostMessagesRaw : Type :=
| ExecRequest (m : ExecRequestRaw)
| SignalUpdate (m : SignalUpdateRaw)
| CorpusTriaged (m : CorpusTriagedRaw)
| StateRequest (m : StateRequestRaw).

(** [union ExecutorMessagesRaw]: messages sent from the executor to the
    host. *)
Inductive ExecutorMessagesRaw : Type :=
| ExecResult (m : ExecResultRaw)
| Executing (m : ExecutingMessageRaw)
| State (m : StateResultRaw).

(** [table HostMessageRaw] and [table ExecutorMessageRaw]: the union field
    may be unset. *)
Record HostMessageRaw := { HostMessageRaw_msg : option HostMessagesRaw }.

Record ExecutorMessageRaw := {
  ExecutorMessageRaw_msg : option ExecutorMessagesRaw
}.

(** A variant as the schema declares it: [Name : Type]. *)
Definition HostMessagesRaw_variant (m : HostMessagesRaw) : string * string :=
  match m with
  | ExecRequest _ => ("ExecRequest", "ExecRequestRaw")
  | SignalUpdate _ => ("SignalUpdate", "SignalUpdateRaw")
  | CorpusTriaged _ => ("CorpusTriaged", "CorpusTriagedRaw")
  | StateRequest _ => ("StateRequest", "StateRequestRaw")
  end.

Definition ExecutorMessagesRaw_variant (m : ExecutorMessagesRaw)
  : string * string :=
  match m with
  | ExecResult _ => ("ExecResult", "ExecResultRaw")
  | Executing _ => ("Executing", "ExecutingMessageRaw")
  | State _ => ("State", "StateResultRaw")
  end.

End flatrpc.

(** ** The enums declared [bit_flags] *)

(** An enum declared [bit_flags]: the names in the order of the declaration,
    the k-th of them, counting from 0, with the value [1 << k], in an
    underlying unsigned integer of [bits] bits. *)
Class BitFlags (A : Type) := {
  index : A → nat;
  bits : nat
}.

Module bit_flags.

Definition value {A} `{BitFlags A} (f : A) : N := N.shiftl 1 (N.of_nat (index f)).

(** The flags of [l] combined: [f1 | f2 | ...]. *)
Definition mask {A} `{BitFlags A} (l : list A) : N :=
  foldr (λ f m, N.lor (value f) m) 0%N l.

(** [m & f != 0] *)
Definition has {A} `{BitFlags A} (m : N) (f : A) : bool :=
  negb (N.land m (value f) =? 0)%N.

End bit_flags.

(** [enum Feature : uint64 (bit_flags)] *)
Module Feature.

Inductive t : Set :=
| Coverage | Comparisons | ExtraCoverage | DelayKcovMmap | SandboxNone
| SandboxSetuid | SandboxNamespace | SandboxAndroid | Fault | Leak
| NetInjection | NetDevices | KCSAN | DevlinkPCI | NicVF | USBEmulation
| VhciInjection | WifiEmulation | LRWPANEmulation | BinFmtMisc | Swap.

#[global] Instance flags : BitFlags t := {|
  index f :=
    match f with
    | Coverage => 0 | Comparisons => 1 | ExtraCoverage => 2
    | DelayKcovMmap => 3 | SandboxNone => 4 | SandboxSetuid => 5
    | SandboxNamespace => 6 | SandboxAndroid => 7 | Fault => 8 | Leak => 9
    | NetInjection => 10 | NetDevices => 11 | KCSAN => 12 | DevlinkPCI => 13
    | NicVF => 14 | USBEmulation => 15 | VhciInjection => 16
    | WifiEmulation => 17 | LRWPANEmulation => 18 | BinFmtMisc => 19
    | Swap => 20
    end%nat;
  bits := 64
|}.

End Feature.

(** [enum RequestFlag : uint64 (bit_flags)] *)
Module RequestFlag.

Inductive t : Set := IsBinary | ReturnOutput | ReturnError.

#[global] Instance flags : BitFlags t := {|
  index f :=
    match f with IsBinary => 0 | ReturnOutput => 1 | ReturnError => 2 end%nat;
  bits := 64
|}.

End RequestFlag.

(** [enum ExecEnv : uint64 (bit_flags)] *)
Module ExecEnv.

Inductive t : Set :=
| Debug | Signal | ResetState | SandboxNone | SandboxSetuid
| SandboxNamespace | SandboxAndroid | ExtraCover | EnableTun | EnableNetDev
| EnableNetReset | EnableCgroups | EnableCloseFds | EnableDevlinkPCI
| EnableVhciInjection | EnableWifi | DelayKcovMmap | EnableNicVF.

#[global] Instance flags : BitFlags t := {|
  index f :=
    match f with
    | Debug => 0 | Signal => 1 | ResetState => 2 | SandboxNone => 3
    | SandboxSetuid => 4 | SandboxNamespace => 5 | SandboxAndroid => 6
    | ExtraCover => 7 | EnableTun => 8 | EnableNetDev => 9
    | EnableNetReset => 10 | EnableCgroups => 11 | EnableCloseFds => 12
    | EnableDevlinkPCI => 13 | EnableVhciInjection => 14 | EnableWifi => 15
    | DelayKcovMmap => 16 | EnableNicVF => 17
    end%nat;
  bits := 64
|}.

End ExecEnv.

(** [enum ExecFlag : uint64 (bit_flags)] *)
Module ExecFlag.

Inductive t : Set :=
| CollectSignal | CollectCover | DedupCover | CollectComps | Threaded.

#[global] Instance flags : BitFlags t := {|
  index f :=
    match f with
    | CollectSignal => 0 | CollectCover => 1 | DedupCover => 2
    | CollectComps => 3 | Threaded => 4
    end%nat;
  bits := 64
|}.

End ExecFlag.

(** [enum CallFlag : uint8 (bit_flags)] *)
Module CallFlag.

Inductive t : Set := Executed | Finished | Blocked | FaultInjected.

#[global] Instance flags : BitFlags t := {|
  index f :=
    match f with
    | Executed => 0 | Finished => 1 | Blocked => 2 | FaultInjected => 3
    end%nat;
  bits := 8
|}.

End CallFlag.


(* ===================================================================== *)
(** * The vocabulary of the statements *)
(* ===================================================================== *)

(** ** Names in order, and the lines of the output *)

(** [s] comes before [t] in the lexicographic order of their bytes: at the
    first index where they differ [s] has the smaller byte, or [s] ends
    there and [t] goes on. *)
Inductive lexicographic_lt : string → string → Prop :=
| lex_shorter c t : lexicographic_lt "" (String c t)
| lex_byte c d s t :
    utf8.byte c < utf8.byte d → lexicographic_lt (String c s) (String d t)
| lex_tail c s t :
    lexicographic_lt s t → lexicographic_lt (String c s) (String c t).

(** [x] comes strictly before [y]: the names compare as [Less] compares
    them. *)
Definition name_lt (x y : NameValue) : Prop :=
  GoString.lt (name x) (name y) = true.

(** [x] comes before [y] or has the same name. *)
Definition name_le (x y : NameValue) : Prop := String.le (name x) (name y).

(** What the inner loop does to the sorted prefix, read from its end:
    [x] moves left past the elements it is less than. *)
Fixpoint move_left (x : NameValue) (rpre : list NameValue) : list NameValue :=
  match rpre with
  | [] => [x]
  | y :: rpre' =>
      if GoString.lt (name x) (name y) then y :: move_left x rpre'
      else x :: y :: rpre'
  end.

(** The pair [NameValue{k, v}] of an entry of the map of constants. *)
Definition pair_of_entry (e : string * N) : NameValue :=
  mkNameValue e.1 e.2.

(** The line of one constant: [fmt.Fprintf(out, "%v = %v\n", x.name, x.val)]. *)
Definition const_line (x : NameValue) : string :=
  name x +:+ " = " +:+ fmt.fmtUint64 (val x) +:+ GoString.newline.

(** The lines of an array of constants, one after the other. *)
Definition const_lines (nv : list NameValue) : string :=
  foldr (λ x rest, const_line x +:+ rest) "" nv.

(** ** Decimal numerals *)

(** [decimal s n]: [s] is the decimal numeral of [n], most significant
    digit first and without superfluous zeros. *)
Inductive decimal : string → N → Prop :=
| decimal_digit d :
    (d < 10)%N → decimal (String (fmt.digit d) "") d
| decimal_snoc s n d :
    decimal s n → n ≠ 0%N → (d < 10)%N →
    decimal (s +:+ String (fmt.digit d) "") (10 * n + d).

(** The ten digits as they are written, and what each stands for. *)
Inductive digit_char : ascii → N → Prop :=
| digit_0 : digit_char "0" 0
| digit_1 : digit_char "1" 1
| digit_2 : digit_char "2" 2
| digit_3 : digit_char "3" 3
| digit_4 : digit_char "4" 4
| digit_5 : digit_char "5" 5
| digit_6 : digit_char "6" 6
| digit_7 : digit_char "7" 7
| digit_8 : digit_char "8" 8
| digit_9 : digit_char "9" 9.

(** [numeral s n]: the characters of [s] are the decimal digits of [n],
    the most significant first; the only numeral that begins with [0] is
    [0] itself. *)
Inductive numeral : string → N → Prop :=
| numeral_digit c d : digit_char c d → numeral (String c "") d
| numeral_snoc s n c d :
    numeral s n → n ≠ 0%N → digit_char c d →
    numeral (s +:+ String c "") (10 * n + d).

(** The line feed, byte 10. *)
Definition line_feed : ascii := "010"%char.

(** [records nv text]: [text] consists of one line for each element of
    [nv], in the order of [nv]: the name, the three bytes [ = ], the numeral
    of the value, a line feed. *)
Inductive records : list NameValue → string → Prop :=
| records_nil : records [] ""
| records_cons x nv d rest :
    numeral d (val x) → records nv rest →
    records (x :: nv) (name x +:+ " = " +:+ d +:+ String line_feed rest).

(** Reading a numeral back, digit by digit. *)
Fixpoint decimal_value_from (acc : N) (s : string) : option N :=
  match s with
  | EmptyString => Some acc
  | String c s' =>
      let d := N_of_ascii c in
      if (48 <=? d)%N && (d <=? 57)%N then
        decimal_value_from (10 * acc + (d - 48)) s'
      else None
  end.

Definition decimal_value (s : string) : option N :=
  match s with
  | EmptyString => None
  | _ => decimal_value_from 0 s
  end.

(** ** Identifiers *)

(** The characters of an identifier, in the terms of the description: an
    ASCII letter, the underscore, an ASCII digit. *)
Definition ascii_letter (c : ascii) : Prop :=
  97 ≤ utf8.byte c ≤ 122 ∨ 65 ≤ utf8.byte c ≤ 90.

Definition ascii_digit (c : ascii) : Prop := 48 ≤ utf8.byte c ≤ 57.

Definition valid_identifier (s : string) : Prop :=
  ∀ i c, String.get i s = Some c →
         ascii_letter c ∨ c = "_"%char ∨ (ascii_digit c ∧ (0 < i)%nat).

(** [s] starts with [prefix]: it is [prefix] followed by some bytes. *)
Definition starts_with (prefix s : string) : Prop :=
  ∃ rest, s = prefix +:+ rest.

(** ** The runs of [compileConsts] and [main], path by path *)

(** The flag variables once [main] has defaulted the build directory, and
    the line it logs when doing so. *)
Definition with_build_dir (cl : CmdLine) : CmdLine :=
  if GoString.eq (flagLinuxBld cl) "" then
    mkCmdLine (flagLinux cl) (flagLinux cl) (flagArch cl) (flagV cl) (Args cl)
  else cl.

Definition build_dir_log (cl : CmdLine) : list event :=
  if GoString.eq (flagLinuxBld cl) "" && (1 <=? flagV cl) then
    [Stderr ("No kernel build directory provided, assuming in-place build"
             +:+ GoString.newline)]
  else [].

Definition usage : string :=
  "usage: syz-extract -linux=/linux/checkout -arch=arch sys/input_file.txt".

Section Runs.

Context (rt : Runtime) (w : World).

Inductive compileConsts_run (cl : CmdLine) (arch : Arch) (desc : Description)
  : Proc (gmap string N) → Prop :=
| compile_nothing :
    identifiers_of rt (collect_vals rt desc) = [] →
    compileConsts_run cl arch desc ([], Returned ∅)
| compile_fetched call consts :
    identifiers_of rt (collect_vals rt desc) ≠ [] →
    call = mkFetchCall cl (KernelHeaderArch arch)
             (identifiers_of rt (collect_vals rt desc))
             (Includes desc ++ [KernelInclude arch]) (Incdirs desc)
             (Defines desc) (CFlags arch) →
    fetchValues w call = Ok consts →
    compileConsts_run cl arch desc
      ([FetchValues call (Ok consts)], Returned consts)
| compile_fetch_failed call err :
    identifiers_of rt (collect_vals rt desc) ≠ [] →
    call = mkFetchCall cl (KernelHeaderArch arch)
             (identifiers_of rt (collect_vals rt desc))
             (Includes desc ++ [KernelInclude arch]) (Incdirs desc)
             (Defines desc) (CFlags arch) →
    fetchValues w call = Err err →
    compileConsts_run cl arch desc
      ([FetchValues call (Err err); Stderr (err +:+ GoString.newline)],
       Exited 1).

Inductive main_run (cl : CmdLine) : Proc unit → Prop :=
| run_no_linux :
    flagLinux cl = "" →
    main_run cl
      ([Stderr ("provide path to linux kernel checkout via -linux flag (or make extract LINUX= flag)"
                +:+ GoString.newline)], Exited 1)
| run_no_arch :
    flagLinux cl ≠ "" → flagArch cl = "" →
    main_run cl
      (build_dir_log cl
         ++ [Stderr ("-arch flag is required" +:+ GoString.newline)],
       Exited 1)
| run_unknown_arch :
    flagLinux cl ≠ "" → flagArch cl ≠ "" → archs !! flagArch cl = None →
    main_run cl
      (build_dir_log cl
         ++ [Stderr (("unknown arch " +:+ flagArch cl) +:+ GoString.newline)],
       Exited 1)
| run_usage arch :
    flagLinux cl ≠ "" → flagArch cl ≠ "" → archs !! flagArch cl = Some arch →
    (∀ inname, Args cl ≠ [inname]) →
    main_run cl
      (build_dir_log cl ++ [Stderr (usage +:+ GoString.newline)], Exited 1)
| run_open_failed arch inname err :
    flagLinux cl ≠ "" → flagArch cl ≠ "" → archs !! flagArch cl = Some arch →
    Args cl = [inname] → os_Open w inname = Err err →
    main_run cl
      (build_dir_log cl
         ++ [Open inname (Err err);
             Stderr (("failed to open input file: " +:+ err)
                     +:+ GoString.newline)],
       Exited 1)
| run_compile_exited arch inname inf t code :
    flagLinux cl ≠ "" → flagArch cl ≠ "" → archs !! flagArch cl = Some arch →
    Args cl = [inname] → os_Open w inname = Ok inf →
    compileConsts rt w (with_build_dir cl) arch (Parse w inf)
      = (t, Exited code) →
    main_run cl (build_dir_log cl ++ Open inname (Ok inf) :: t, Exited code)
| run_write_failed arch inname inf t consts err :
    flagLinux cl ≠ "" → flagArch cl ≠ "" → archs !! flagArch cl = Some arch →
    Args cl = [inname] → os_Open w inname = Ok inf →
    compileConsts rt w (with_build_dir cl) arch (Parse w inf)
      = (t, Returned consts) →
    osutil_WriteFile w (outname inname (flagArch cl))
      (generateConsts rt (flagArch cl) consts "") = Some err →
    main_run cl
      (build_dir_log cl ++ Open inname (Ok inf) :: t
         ++ [WriteFile (outname inname (flagArch cl))
               (generateConsts rt (flagArch cl) consts "") (Some err);
             Stderr (("failed to write output file: " +:+ err)
                     +:+ GoString.newline)],
       Exited 1)
| run_written arch inname inf t consts :
    flagLinux cl ≠ "" → flagArch cl ≠ "" → archs !! flagArch cl = Some arch →
    Args cl = [inname] → os_Open w inname = Ok inf →
    compileConsts rt w (with_build_dir cl) arch (Parse w inf)
      = (t, Returned consts) →
    osutil_WriteFile w (outname inname (flagArch cl))
      (generateConsts rt (flagArch cl) consts "") = None →
    main_run cl
      (build_dir_log cl ++ Open inname (Ok inf) :: t
         ++ [WriteFile (outname inname (flagArch cl))
               (generateConsts rt (flagArch cl) consts "") None],
       Returned tt).

End Runs.

(** ** Example inputs *)

Definition example_consts : gmap string N :=
  <["SYS_B" := 2%N]> (<["AT_FDCWD" := 18446744073709551516%N]>
  (<["__NR_open" := 2%N]> (<["O_RDWR" := 2%N]> ∅))).

Definition example_desc : Description := {|
  Includes := ["linux/fcntl.h"];
  Incdirs := [];
  Defines := {["MY_DEFINE" := "1"]};
  Syscalls := [mkSyscall "open"; mkSyscall "syz_open_dev"];
  Flags := {["open_flags" := ["O_RDWR"; "0x40"; ""]]};
  Resources := {["fd" := mkResource ["AT_FDCWD"; "-1"]]}
|}.

(** A description that refers to numbers and a pseudo-syscall only. *)
Definition literal_desc : Description := {|
  Includes := [];
  Incdirs := [];
  Defines := ∅;
  Syscalls := [mkSyscall "syz_test"];
  Flags := {["mode" := ["0x1"; "2"]]};
  Resources := ∅
|}.

Definition example_world (desc : Description)
    (fetched : result (gmap string N)) (written : option string) : World := {|
  os_Open name :=
    if GoString.eq name "sys/missing.txt" then
      Err "open sys/missing.txt: no such file or directory"
    else Ok "include <linux/fcntl.h>";
  Parse _ := desc;
  fetchValues _ := fetched;
  osutil_WriteFile _ _ := written
|}.

Definition example_cmdline (arch inname : string) : CmdLine :=
  mkCmdLine "/linux" "" arch 1 [inname].

(** A [flag.Parse] that knows four command lines: the help flag, a flag
    that is not defined, one input file with verbosity 1, and two input
    files with a build directory. *)
Definition example_flag_Parse (args : list string) : flag_result :=
  if decide (args = ["-h"]) then
    flag_help ["Usage of syz-extract:" +:+ GoString.newline]
  else if decide (args = ["-linux=/linux"; "-v=1"; "-arch=amd64";
                          "sys/test.txt"]) then
    flag_parsed (example_cmdline "amd64" "sys/test.txt")
  else if decide (args = ["-linux=/linux"; "-linuxbld=/linux/build";
                          "-arch=amd64"; "sys/a.txt"; "sys/b.txt"]) then
    flag_parsed (mkCmdLine "/linux" "/linux/build" "amd64" 0
                           ["sys/a.txt"; "sys/b.txt"])
  else
    flag_failed ["flag provided but not defined: -nosuchflag"
                 +:+ GoString.newline;
                 "Usage of syz-extract:" +:+ GoString.newline].


(** ** Further vocabulary: traces, bytes and flags *)

(** The events of a trace that are not lines on standard error. *)
Fixpoint outside_calls (t : list event) : list event :=
  match t with
  | [] => []
  | Stderr _ :: t' => outside_calls t'
  | e :: t' => e :: outside_calls t'
  end.

(** The line [logf] prints when [main] defaults the build directory. *)
Definition build_dir_notice : string :=
  "No kernel build directory provided, assuming in-place build"
  +:+ GoString.newline.

(** The call of the resolver in the example runs on [example_desc]. *)
Definition example_call (arch header : string) (cflags : list string)
  : FetchCall :=
  mkFetchCall (mkCmdLine "/linux" "/linux" arch 1 ["sys/test.txt"]) header
    ["__NR_open"; "O_RDWR"; "MY_DEFINE"; "AT_FDCWD"; ""]
    ["linux/fcntl.h"; "asm/unistd.h"] [] {["MY_DEFINE" := "1"]} cflags.

(** A byte that may occur in an identifier after its first byte. *)
Definition identifier_byte (c : ascii) : Prop :=
  ascii_letter c ∨ c = "_"%char ∨ ascii_digit c.

(** The byte [c] does not occur in [s]. *)
Definition no_byte (c : ascii) (s : string) : Prop :=
  ∀ i, String.get i s ≠ Some c.

(** The names are identifiers and the values are of 64 bits. *)
Definition well_formed_const (x : NameValue) : Prop :=
  valid_identifier (name x) ∧ (val x < 2 ^ 64)%N.

(** Sets of flags survive the encoding: a flag is set in a combination of
    flags exactly when it is one of them, and the combination fits the
    underlying integer. *)
Definition flags_faithful (A : Type) `{BitFlags A} : Prop :=
  (∀ f g : A, bit_flags.value f = bit_flags.value g → f = g)
  ∧ (∀ (l : list A) (f : A),
       bit_flags.has (bit_flags.mask l) f = true ↔ f ∈ l)
  ∧ (∀ l : list A, (bit_flags.mask l < 2 ^ N.of_nat bits)%N).


(* ===================================================================== *)
(** * Facts about byte strings *)
(* ===================================================================== *)

Lemma len_app (a b : string) :
  GoString.len (a +:+ b) = (GoString.len a + GoString.len b)%nat.
Proof.
  unfold GoString.len. induction a as [|c a IH]; simpl; [done|].
  by rewrite IH.
Qed.

Lemma substring_all (s : string) : String.substring 0 (String.length s) s = s.
Proof. induction s as [|c s IH]; simpl; [done|]. by rewrite IH. Qed.

Lemma substring_app_l (a b : string) :
  String.substring 0 (String.length a) (a +:+ b) = a.
Proof.
  induction a as [|c a IH]; simpl.
  - by destruct b.
  - by rewrite IH.
Qed.

Lemma substring_app_r (a b : string) :
  String.substring (String.length a) (String.length b) (a +:+ b) = b.
Proof.
  induction a as [|c a IH]; simpl; [apply substring_all | exact IH].
Qed.

(** A string is its first [k] bytes followed by the rest. *)
Lemma substring_split (s : string) (k : nat) :
  (k ≤ String.length s)%nat →
  s = String.substring 0 k s +:+ String.substring k (String.length s - k) s.
Proof.
  revert k. induction s as [|c s IH]; intros [|k] Hk; simpl in *.
  - done.
  - lia.
  - by rewrite substring_all.
  - rewrite (IH k ltac:(lia)) at 1. done.
Qed.

Lemma HasSuffix_true (s suffix : string) :
  GoString.HasSuffix s suffix = true ↔ ∃ base, s = base +:+ suffix.
Proof.
  unfold GoString.HasSuffix, GoString.slice, GoString.eq, GoString.len.
  rewrite andb_true_iff, Nat.leb_le, String.eqb_eq. split.
  - intros [Hle Heq].
    exists (String.substring 0 (String.length s - String.length suffix) s).
    pose proof (substring_split s (String.length s - String.length suffix)
                  ltac:(lia)) as Hs.
    by rewrite Heq in Hs.
  - intros [base ->]. pose proof (len_app base suffix) as Hlen.
    unfold GoString.len in Hlen. rewrite Hlen. split; [lia|].
    replace (String.length base + String.length suffix - String.length suffix)%nat
      with (String.length base) by lia.
    replace (String.length base + String.length suffix - String.length base)%nat
      with (String.length suffix) by lia.
    apply substring_app_r.
Qed.

Lemma TrimSuffix_app (base suffix : string) :
  GoString.TrimSuffix (base +:+ suffix) suffix = base.
Proof.
  unfold GoString.TrimSuffix.
  assert (GoString.HasSuffix (base +:+ suffix) suffix = true) as ->
    by (apply HasSuffix_true; eauto).
  unfold GoString.slice. rewrite len_app.
  replace (GoString.len base + GoString.len suffix - GoString.len suffix - 0)%nat
    with (String.length base) by (unfold GoString.len; lia).
  apply substring_app_l.
Qed.

Lemma TrimSuffix_other (s suffix : string) :
  GoString.HasSuffix s suffix = false → GoString.TrimSuffix s suffix = s.
Proof. unfold GoString.TrimSuffix. by intros ->. Qed.

Lemma HasPrefix_true (s prefix : string) :
  GoString.HasPrefix s prefix = true ↔ ∃ rest, s = prefix +:+ rest.
Proof.
  unfold GoString.HasPrefix, GoString.slice, GoString.eq, GoString.len.
  rewrite andb_true_iff, Nat.leb_le, String.eqb_eq, Nat.sub_0_r. split.
  - intros [Hle Heq].
    exists (String.substring (String.length prefix)
                             (String.length s - String.length prefix) s).
    pose proof (substring_split s (String.length prefix) Hle) as Hs.
    by rewrite Heq in Hs.
  - intros [rest ->]. pose proof (len_app prefix rest) as Hlen.
    unfold GoString.len in Hlen. rewrite Hlen. split; [lia|].
    apply substring_app_l.
Qed.

(** ** The extension of a path *)

Lemma Ext_scan_cases (path : string) (n : nat) :
  SpecPath.Ext_scan path n = ""
  ∨ ∃ i, (i < n)%nat ∧ is_Some (String.get i path)
         ∧ SpecPath.Ext_scan path n = GoString.slice path i (GoString.len path).
Proof.
  induction n as [|n IH]; simpl; [by left|].
  destruct (String.get n path) as [c|] eqn:Hget; [|by left].
  destruct (Ascii.eqb c "/"); [by left|].
  destruct (Ascii.eqb c ".").
  - right. exists n. rewrite Hget. eauto.
  - destruct IH as [->|(i & Hi & Hs & ->)]; [by left|].
    right. exists i. split; [lia|done].
Qed.

Lemma get_Some_lt (s : string) (i : nat) :
  is_Some (String.get i s) → (i < String.length s)%nat.
Proof.
  revert i. induction s as [|c s IH]; intros [|i] [x Hx]; simpl in *;
    try done; try lia.
  assert (i < String.length s)%nat by (apply IH; eauto). lia.
Qed.

(** A path whose extension is [ext], a non-empty string, ends in [ext], and
    the path without its extension is what precedes. *)
Lemma Ext_suffix (path ext : string) :
  SpecPath.Ext path = ext → ext ≠ "" →
  ∃ base, path = base +:+ ext ∧ SpecPath.without_ext path = base.
Proof.
  intros Hext Hne. unfold SpecPath.Ext in Hext.
  destruct (Ext_scan_cases path (GoString.len path))
    as [Hnil|(i & Hi & Hs & Heq)]; [congruence|].
  apply get_Some_lt in Hs.
  assert (∃ base, path = base +:+ ext) as [base Hsplit].
  { exists (String.substring 0 i path).
    rewrite <- Hext, Heq. unfold GoString.slice, GoString.len.
    apply substring_split. lia. }
  clear i Hi Hs Heq. subst path. exists base. split; [done|].
  unfold SpecPath.without_ext, SpecPath.Ext. rewrite Hext.
  unfold GoString.slice. rewrite Nat.sub_0_r, len_app.
  replace (GoString.len base + GoString.len ext - GoString.len ext)%nat
    with (String.length base) by (unfold GoString.len; lia).
  apply substring_app_l.
Qed.

Example outname_txt : outname "sys/foo.txt" "amd64" = "sys/foo_amd64.const".
Proof. reflexivity. Qed.

Example outname_spec_txt :
  SpecPath.outname_spec "sys/foo.txt" "amd64" = "sys/foo_amd64.const".
Proof. reflexivity. Qed.

Example outname_nested_txt :
  outname "sys/foo.txt.txt" "arm64" = "sys/foo.txt_arm64.const".
Proof. reflexivity. Qed.

Example Ext_of_hidden_directory : SpecPath.Ext "sys.d/foo" = "".
Proof. reflexivity. Qed.


(* ===================================================================== *)
(** * The process monad and the runs of the program *)
(* ===================================================================== *)

(** ** The runs of [compileConsts] and [main], path by path *)

Lemma Proc_bind_Returned {A B} (f : A → Proc B) (t : list event) (a : A) :
  ((t, Returned a) ≫= f) = (t ++ (f a).1, (f a).2).
Proof. unfold mbind, Proc_mbind, Proc_bind. by destruct (f a). Qed.

Lemma Proc_bind_Exited {A B} (f : A → Proc B) (t : list event) (c : Z) :
  ((t, Exited c) ≫= f) = (t, Exited c).
Proof. done. Qed.

Lemma Proc_ret_bind {A B} (f : A → Proc B) (a : A) : (mret a ≫= f) = f a.
Proof.
  unfold mbind, mret, Proc_mbind, Proc_mret, Proc_bind, Proc_ret.
  by destruct (f a).
Qed.

Lemma failf_bind {A B} (f : A → Proc B) (text : string) :
  (failf text ≫= f) = failf text.
Proof. done. Qed.

Lemma failf_run {A} (text : string) :
  @failf A text = ([Stderr (text +:+ GoString.newline)], Exited 1).
Proof. done. Qed.

Lemma emit_bind {B} (f : unit → Proc B) (e : event) :
  (emit e ≫= f) = (e :: (f tt).1, (f tt).2).
Proof.
  unfold emit, mbind, Proc_mbind, Proc_bind. by destruct (f tt).
Qed.

Section Runs_proofs.

Context (rt : Runtime) (w : World).

Lemma compileConsts_runs cl arch desc :
  compileConsts_run rt w cl arch desc (compileConsts rt w cl arch desc).
Proof.
  unfold compileConsts.
  destruct (identifiers_of rt (collect_vals rt desc)) as [|v valArr] eqn:Hids;
    simpl.
  - by constructor.
  - match goal with |- context [fetchValues w ?c] =>
      set (call := c); destruct (fetchValues w call) as [consts|err] eqn:Hres
    end.
    + apply (compile_fetched rt w _ _ _ call consts); rewrite ?Hids; done.
    + apply (compile_fetch_failed rt w _ _ _ call err); rewrite ?Hids; done.
Qed.

Lemma GoString_eq_true (s t : string) : GoString.eq s t = true ↔ s = t.
Proof. apply String.eqb_eq. Qed.

Lemma GoString_eq_false (s t : string) : GoString.eq s t = false ↔ s ≠ t.
Proof. apply String.eqb_neq. Qed.

Lemma flagArch_with_build_dir cl : flagArch (with_build_dir cl) = flagArch cl.
Proof. unfold with_build_dir. by destruct (GoString.eq _ _). Qed.

Lemma Args_with_build_dir cl : Args (with_build_dir cl) = Args cl.
Proof. unfold with_build_dir. by destruct (GoString.eq _ _). Qed.

(** The first steps of [main]: the message about the build directory, and
    the flag variables handed on. *)
Lemma build_dir_step {A} cl (k : CmdLine → Proc A) :
  ((if GoString.eq (flagLinuxBld cl) "" then
      logf cl 1 "No kernel build directory provided, assuming in-place build";;
      mret (mkCmdLine (flagLinux cl) (flagLinux cl) (flagArch cl)
                      (flagV cl) (Args cl))
    else mret cl) ≫= k)
  = (build_dir_log cl ++ (k (with_build_dir cl)).1, (k (with_build_dir cl)).2).
Proof.
  unfold build_dir_log, with_build_dir, logf.
  destruct (GoString.eq (flagLinuxBld cl) ""); simpl;
    [destruct (1 <=? flagV cl)|];
    unfold emit, mbind, mret, Proc_mbind, Proc_mret, Proc_bind, Proc_ret;
    simpl; by destruct (k _).
Qed.

Lemma main_runs cl : main_run rt w cl (main rt w cl).
Proof.
  unfold main.
  destruct (GoString.eq (flagLinux cl) "") eqn:Hlinux.
  { apply GoString_eq_true in Hlinux. by apply run_no_linux. }
  apply GoString_eq_false in Hlinux.
  rewrite Proc_ret_bind, build_dir_step.
  rewrite flagArch_with_build_dir, Args_with_build_dir.
  destruct (GoString.eq (flagArch cl) "") eqn:Harch.
  { apply GoString_eq_true in Harch. rewrite failf_bind, failf_run. simpl.
    by apply run_no_arch. }
  apply GoString_eq_false in Harch. rewrite Proc_ret_bind.
  destruct (archs !! flagArch cl) as [arch|] eqn:Hreg; cycle 1.
  { rewrite failf_bind, failf_run. simpl. by apply run_unknown_arch. }
  rewrite Proc_ret_bind.
  destruct (Args cl) as [|inname [|? ?]] eqn:Hargs;
    try (rewrite failf_bind, failf_run; simpl;
         apply (run_usage rt w _ arch); [done..|by rewrite Hargs]).
  rewrite Proc_ret_bind, emit_bind.
  destruct (os_Open w inname) as [inf|err] eqn:Hopen; cycle 1.
  { rewrite failf_bind, failf_run. simpl. by eapply run_open_failed. }
  rewrite Proc_ret_bind.
  destruct (compileConsts rt w (with_build_dir cl) arch (Parse w inf))
    as [t [consts|code]] eqn:Hcompile; cycle 1.
  { rewrite Proc_bind_Exited. simpl. by eapply run_compile_exited. }
  rewrite Proc_bind_Returned, emit_bind.
  destruct (osutil_WriteFile w _ _) as [err|] eqn:Hwrite; simpl.
  - by eapply run_write_failed.
  - by eapply run_written.
Qed.

End Runs_proofs.


(* ===================================================================== *)
(** * [generateConsts]: sorting and printing *)
(* ===================================================================== *)

(** ** The order on names *)

Lemma GoString_lt_not_le (s t : string) :
  GoString.lt s t = true ↔ ¬ String.le t s.
Proof.
  unfold GoString.lt, String.le, String.ltb, String.leb.
  rewrite (String.compare_antisym s t).
  destruct (String.compare t s); simpl; intuition (try done).
Qed.

Lemma GoString_lt_irrefl (s : string) : GoString.lt s s = false.
Proof.
  apply not_true_is_false. rewrite GoString_lt_not_le. intros H. by apply H.
Qed.

Lemma GoString_lt_trans (s t u : string) :
  GoString.lt s t = true → GoString.lt t u = true → GoString.lt s u = true.
Proof.
  rewrite !GoString_lt_not_le. intros Hts Hut Hus.
  destruct (total String.le s t) as [Hst|]; [|done].
  apply Hut. by trans s.
Qed.

Lemma GoString_lt_asym (s t : string) :
  GoString.lt s t = true → GoString.lt t s = false.
Proof.
  intros Hst. apply not_true_is_false. intros Hts.
  pose proof (GoString_lt_trans _ _ _ Hst Hts) as H.
  by rewrite GoString_lt_irrefl in H.
Qed.

Lemma GoString_lt_total (s t : string) :
  s ≠ t → GoString.lt t s = false → GoString.lt s t = true.
Proof.
  intros Hne Hts. apply GoString_lt_not_le. intros Hle.
  apply Hne. apply (anti_symm String.le); [|done].
  destruct (total String.le s t) as [|Hts']; [done|].
  destruct (decide (String.le s t)) as [|Hn]; [done|].
  apply GoString_lt_not_le in Hn. congruence.
Qed.

Lemma Ascii_compare_byte (c d : ascii) :
  Ascii.compare c d = (utf8.byte c ?= utf8.byte d).
Proof.
  unfold Ascii.compare, utf8.byte. by rewrite N2Z.inj_compare.
Qed.

Lemma byte_inj (c d : ascii) : utf8.byte c = utf8.byte d → c = d.
Proof.
  unfold utf8.byte. intros H%N2Z.inj.
  by rewrite <- (ascii_N_embedding c), <- (ascii_N_embedding d), H.
Qed.

(** [<] on Go strings is the lexicographic order of the bytes. *)
Lemma GoString_lt_lexicographic (s t : string) :
  GoString.lt s t = true ↔ lexicographic_lt s t.
Proof.
  unfold GoString.lt, String.ltb. split.
  - revert t. induction s as [|c s IH]; intros [|d t]; simpl; try done.
    + intros _. constructor.
    + rewrite Ascii_compare_byte.
      destruct (Z.compare_spec (utf8.byte c) (utf8.byte d)) as [Heq|Hlt|Hgt];
        simpl; try done.
      * apply byte_inj in Heq as ->. intros H. apply lex_tail, IH, H.
      * intros _. by apply lex_byte.
  - induction 1 as [c t|c d s t Hlt|c s t Hst IH]; simpl.
    + done.
    + rewrite Ascii_compare_byte.
      by apply Z.compare_lt_iff in Hlt as ->.
    + rewrite Ascii_compare_byte, Z.compare_refl. exact IH.
Qed.

Example lt_is_bytewise :
  GoString.lt "AT_FDCWD" "O_RDWR" = true
  ∧ GoString.lt "SYS_B" "__NR_open" = true
  ∧ GoString.lt "Z" "a" = true
  ∧ GoString.lt "O_RD" "O_RDWR" = true
  ∧ GoString.lt "O_RDWR" "O_RDWR" = false.
Proof. by repeat split. Qed.

#[export] Instance name_lt_trans : Transitive name_lt.
Proof. intros x y z. apply GoString_lt_trans. Qed.

#[export] Instance name_le_dec : RelDecision name_le.
Proof. intros x y. unfold name_le. apply _. Defined.

#[export] Instance name_le_total : Total name_le.
Proof. intros x y. apply (total String.le). Qed.

#[export] Instance name_le_trans : Transitive name_le.
Proof. intros x y z. unfold name_le. apply transitivity. Qed.

(** ** Lists sorted position by position *)

Lemma StronglySorted_of_lookup {A} (R : relation A) (l : list A) :
  (∀ i j x y, (i < j)%nat → l !! i = Some x → l !! j = Some y → R x y) →
  StronglySorted R l.
Proof.
  induction l as [|a l IH]; intros Hl; constructor.
  - apply IH. intros i j x y Hij Hi Hj. by apply (Hl (S i) (S j)); [lia|..].
  - apply Forall_forall. intros y [j Hj]%list_elem_of_lookup.
    by apply (Hl 0%nat (S j)); [lia|..].
Qed.

Lemma StronglySorted_lookup {A} (R : relation A) (l : list A) i j x y :
  StronglySorted R l → (i < j)%nat →
  l !! i = Some x → l !! j = Some y → R x y.
Proof.
  intros Hl. revert i j. induction Hl as [|a l Hl IH Ha]; intros i j Hij Hi Hj.
  - done.
  - destruct j as [|j]; [lia|]. destruct i as [|i]; simpl in *.
    + simplify_eq. rewrite Forall_forall in Ha. apply Ha.
      by eapply list_elem_of_lookup_2.
    + apply (IH i j); [lia|done..].
Qed.

(** ** The sorted array of [generateConsts] *)


Lemma foldl_pairs (acc : list NameValue) (l : list (string * N)) :
  foldl (λ nv '(k, v), nv ++ [mkNameValue k v]) acc l
  = acc ++ (pair_of_entry <$> l).
Proof.
  revert acc. induction l as [|[k v] l IH]; intros acc; simpl.
  - by rewrite app_nil_r.
  - rewrite IH. by rewrite <- app_assoc.
Qed.

Lemma NoDup_names (consts : gmap string N) :
  NoDup (name <$> (pair_of_entry <$> map_to_list consts)).
Proof.
  rewrite <- list_fmap_compose.
  apply (NoDup_fst_map_to_list consts).
Qed.

Section Sorted_consts.

Context (rt : Runtime).

Lemma sorted_consts_perm (consts : gmap string N) :
  sorted_consts rt consts ≡ₚ pair_of_entry <$> map_to_list consts.
Proof.
  unfold sorted_consts. rewrite sort_Sort_perm, foldl_pairs. simpl.
  by rewrite range_map_perm.
Qed.

Lemma sorted_consts_NoDup (consts : gmap string N) :
  NoDup (name <$> sorted_consts rt consts).
Proof. rewrite sorted_consts_perm. apply NoDup_names. Qed.

(** No two constants share a name, so the order [sort.Sort] establishes is
    strict. *)
Lemma sorted_consts_sorted (consts : gmap string N) :
  StronglySorted name_lt (sorted_consts rt consts).
Proof.
  apply StronglySorted_of_lookup. intros i j x y Hij Hi Hj.
  assert (j < NameValueArray.Len (sorted_consts rt consts))%nat as Hlen
    by (by eapply lookup_lt_Some).
  pose proof (sort_Sort_sorted rt _ i j (conj Hij Hlen)) as Hless.
  fold (sorted_consts rt consts) in Hless.
  unfold NameValueArray.Less in Hless. rewrite Hi, Hj in Hless.
  apply GoString_lt_total; [|done].
  intros Heq. pose proof (sorted_consts_NoDup consts) as Hnd.
  assert (i = j); [|lia].
  eapply NoDup_lookup; [exact Hnd|..]; rewrite list_lookup_fmap.
  - by rewrite Hi.
  - rewrite Hj. simpl. by rewrite Heq.
Qed.

End Sorted_consts.

(** The sorted array does not depend on the order of iteration, nor on which
    sorting algorithm [sort.Sort] runs. *)
Lemma sorted_consts_unique (rt1 rt2 : Runtime) (consts : gmap string N) :
  sorted_consts rt1 consts = sorted_consts rt2 consts.
Proof.
  apply (StronglySorted_unique_strong name_lt).
  - intros x y _ _ Hxy Hyx. apply GoString_lt_asym in Hxy.
    unfold name_lt in Hyx. congruence.
  - apply sorted_consts_sorted.
  - apply sorted_consts_sorted.
  - by rewrite !sorted_consts_perm.
Qed.

(** The names of the sorted array ascend in the lexicographic order. *)
Lemma sorted_consts_ascending (rt : Runtime) (consts : gmap string N) :
  StronglySorted (λ x y, lexicographic_lt (name x) (name y))
                 (sorted_consts rt consts).
Proof.
  apply StronglySorted_of_lookup. intros i j x y Hij Hi Hj.
  apply GoString_lt_lexicographic.
  exact (StronglySorted_lookup name_lt _ i j x y
           (sorted_consts_sorted rt consts) Hij Hi Hj).
Qed.

Lemma string_app_cons (x : ascii) (a b : string) :
  String x a +:+ b = String x (a +:+ b).
Proof. done. Qed.

Lemma string_app_assoc (a b c : string) : (a +:+ b) +:+ c = a +:+ b +:+ c.
Proof.
  induction a as [|x a IH]; [done|]. rewrite !string_app_cons. by f_equal.
Qed.

Lemma string_app_nil_r (a : string) : a +:+ "" = a.
Proof.
  induction a as [|x a IH]; [done|]. rewrite string_app_cons. by f_equal.
Qed.

(** ** Decimal numerals *)


Lemma N_of_digit (d : N) : (d < 10)%N → N_of_ascii (fmt.digit d) = (48 + d)%N.
Proof.
  intros Hd. unfold fmt.digit. apply N_ascii_embedding. lia.
Qed.

Lemma decimal_value_from_app (acc : N) (s t : string) :
  decimal_value_from acc (s +:+ t)
  = decimal_value_from acc s ≫= λ a, decimal_value_from a t.
Proof.
  revert acc. induction s as [|c s IH]; intros acc; simpl; [done|].
  destruct (_ && _); [apply IH|done].
Qed.

Lemma decimal_value_from_digit (acc d : N) :
  (d < 10)%N →
  decimal_value_from acc (String (fmt.digit d) "") = Some (10 * acc + d)%N.
Proof.
  intros Hd. simpl. rewrite N_of_digit by done.
  assert ((48 <=? 48 + d)%N && (48 + d <=? 57)%N = true) as ->.
  { apply andb_true_iff. split; apply N.leb_le; lia. }
  do 2 f_equal. lia.
Qed.

Lemma decimal_nonempty (s : string) (n : N) : decimal s n → s ≠ "".
Proof.
  destruct 1 as [d Hd|s n d Hs Hn Hd]; [done|].
  by destruct s.
Qed.

(** The numeral of [n] reads back as [n]. *)
Lemma decimal_reads_back (s : string) (n : N) :
  decimal s n → decimal_value s = Some n.
Proof.
  intros Hs. pose proof (decimal_nonempty s n Hs) as Hne.
  assert (decimal_value_from 0 s = Some n) as Hv.
  { clear Hne. induction Hs as [d Hd|s n d Hs IH Hn Hd].
    - by rewrite decimal_value_from_digit.
    - rewrite decimal_value_from_app, IH. simpl.
      by apply decimal_value_from_digit. }
  by destruct s.
Qed.

(** ** [fmt]: a [uint64] is printed as its decimal numeral *)

Lemma fmtInteger_loop_decimal (fuel : nat) (u : N) (buf : string) :
  (0 < fuel)%nat → (u < 10 ^ N.of_nat fuel)%N →
  ∃ s, fmt.fmtInteger_loop fuel u buf = s +:+ buf ∧ decimal s u.
Proof.
  revert u buf. induction fuel as [|fuel IH]; intros u buf Hfuel Hu; [lia|].
  simpl. destruct (10 <=? u)%N eqn:Hten.
  - apply N.leb_le in Hten.
    rewrite Nat2N.inj_succ, N.pow_succ_r' in Hu.
    destruct fuel as [|fuel']; [simpl in Hu; lia|].
    set (fuel := S fuel') in *.
    destruct (IH (u / 10)%N (String (fmt.digit (u - u / 10 * 10)) buf))
      as (s & -> & Hs); [lia| |].
    { apply N.Div0.div_lt_upper_bound. lia. }
    exists (s +:+ String (fmt.digit (u - u / 10 * 10)) "").
    split; [by rewrite string_app_assoc|].
    pose proof (N.div_mod u 10 ltac:(lia)) as Hdiv.
    pose proof (N.mod_lt u 10 ltac:(lia)) as Hmod.
    assert (u = 10 * (u / 10) + (u - u / 10 * 10))%N as Hu'.
    { clear - Hdiv Hmod. revert Hdiv Hmod.
      generalize (u / 10)%N (u mod 10)%N. intros q r ??. lia. }
    rewrite Hu' at 3.
    apply decimal_snoc; [done| |lia].
    intros H0. rewrite H0 in Hdiv. lia.
  - apply N.leb_gt in Hten. exists (String (fmt.digit u) ""). split; [done|].
    by apply decimal_digit.
Qed.

Lemma fmtUint64_decimal (u : N) :
  (u < 2 ^ 64)%N → decimal (fmt.fmtUint64 u) u.
Proof.
  intros Hu. unfold fmt.fmtUint64.
  destruct (fmtInteger_loop_decimal 20 u "") as (s & -> & Hs); [lia| |].
  - eapply N.lt_trans; [exact Hu|]. by vm_compute.
  - by rewrite string_app_nil_r.
Qed.

(** ** What [generateConsts] writes *)


Lemma foldl_const_lines (out : string) (nv : list NameValue) :
  foldl (λ out x, out +:+ name x +:+ " = " +:+ fmt.fmtUint64 (val x)
                      +:+ GoString.newline) out nv
  = out +:+ const_lines nv.
Proof.
  revert out. induction nv as [|x nv IH]; intros out; simpl.
  - by rewrite string_app_nil_r.
  - rewrite IH. fold (const_line x). by rewrite string_app_assoc.
Qed.

Lemma generateConsts_lines rt (arch : string) (consts : gmap string N)
    (out : string) :
  generateConsts rt arch consts out
  = (out +:+ "# AUTOGENERATED FILE" +:+ GoString.newline)
      +:+ const_lines (sorted_consts rt consts).
Proof. unfold generateConsts. apply foldl_const_lines. Qed.

(** ** Insertion sort through [Len], [Less] and [Swap] *)

Lemma Less_adjacent (l1 l2 : list NameValue) (x y : NameValue) :
  NameValueArray.Less (l1 ++ y :: x :: l2) (S (length l1)) (length l1)
  = GoString.lt (name x) (name y).
Proof.
  unfold NameValueArray.Less.
  rewrite (lookup_app_r l1 _ (S (length l1))) by lia.
  rewrite (lookup_app_r l1 _ (length l1)) by lia.
  replace (S (length l1) - length l1)%nat with 1%nat by lia.
  by rewrite Nat.sub_diag.
Qed.

Lemma Swap_adjacent (l1 l2 : list NameValue) (x y : NameValue) :
  NameValueArray.Swap (l1 ++ y :: x :: l2) (S (length l1)) (length l1)
  = l1 ++ x :: y :: l2.
Proof.
  unfold NameValueArray.Swap.
  rewrite (lookup_app_r l1 _ (S (length l1))) by lia.
  rewrite (lookup_app_r l1 _ (length l1)) by lia.
  replace (S (length l1) - length l1)%nat with 1%nat by lia.
  rewrite Nat.sub_diag. simpl.
  rewrite (insert_app_r_alt l1 _ (S (length l1))) by lia.
  replace (S (length l1) - length l1)%nat with 1%nat by lia. simpl.
  rewrite (insert_app_r_alt l1 _ (length l1)) by lia.
  by rewrite Nat.sub_diag.
Qed.

Lemma insertionSort_inner_move (x : NameValue) (rpre post : list NameValue) :
  insertionSort_inner (reverse rpre ++ x :: post) (length rpre)
  = reverse (move_left x rpre) ++ post.
Proof.
  revert post. induction rpre as [|y rpre IH]; intros post; [done|].
  cbn [length insertionSort_inner move_left].
  rewrite reverse_cons, <- app_assoc. cbn [app].
  rewrite <- (length_reverse rpre), Less_adjacent.
  destruct (GoString.lt (name x) (name y)).
  - rewrite Swap_adjacent, length_reverse, IH.
    by rewrite reverse_cons, <- app_assoc.
  - by rewrite !reverse_cons, <- !app_assoc.
Qed.

Lemma move_left_length x rpre : length (move_left x rpre) = S (length rpre).
Proof.
  induction rpre as [|y rpre IH]; [done|]. simpl.
  destruct (GoString.lt _ _); simpl; by rewrite ?IH.
Qed.

Lemma move_left_perm x rpre : move_left x rpre ≡ₚ x :: rpre.
Proof.
  induction rpre as [|y rpre IH]; [done|]. simpl.
  destruct (GoString.lt _ _); [|done].
  rewrite IH. apply Permutation_swap.
Qed.

Lemma name_le_of_not_lt (x y : NameValue) :
  GoString.lt (name x) (name y) = false → name_le y x.
Proof.
  intros Hlt. unfold name_le.
  destruct (decide (String.le (name y) (name x))) as [|Hn]; [done|].
  apply GoString_lt_not_le in Hn. congruence.
Qed.

Lemma name_le_of_lt (x y : NameValue) :
  GoString.lt (name x) (name y) = true → name_le x y.
Proof.
  intros Hlt%GoString_lt_not_le. unfold name_le.
  by destruct (total String.le (name x) (name y)).
Qed.

(** The prefix read from its end is in descending order, and stays so. *)
Lemma move_left_sorted x rpre :
  StronglySorted (flip name_le) rpre →
  StronglySorted (flip name_le) (move_left x rpre).
Proof.
  induction 1 as [|y rpre Hs IH Hy]; simpl; [repeat constructor|].
  destruct (GoString.lt (name x) (name y)) eqn:Hxy.
  - constructor; [done|]. rewrite move_left_perm.
    constructor; [|done]. by apply name_le_of_lt.
  - apply name_le_of_not_lt in Hxy.
    constructor; [by constructor|]. constructor; [done|].
    eapply Forall_impl; [exact Hy|]. intros z Hz. unfold flip in *.
    by trans y.
Qed.

Lemma insertionSort_prefix (rpre rest : list NameValue) :
  StronglySorted (flip name_le) rpre →
  ∃ r, foldl insertionSort_inner (reverse rpre ++ rest)
             (seq (length rpre) (length rest)) = reverse r
       ∧ StronglySorted (flip name_le) r
       ∧ r ≡ₚ rpre ++ rest.
Proof.
  revert rpre. induction rest as [|x rest IH]; intros rpre Hs.
  - exists rpre. by rewrite !app_nil_r.
  - cbn [length seq foldl]. rewrite insertionSort_inner_move.
    destruct (IH (move_left x rpre)) as (r & Hr & Hsorted & Hperm).
    { by apply move_left_sorted. }
    rewrite move_left_length in Hr. exists r. split; [done|].
    split; [done|]. rewrite Hperm, move_left_perm.
    apply Permutation_middle.
Qed.

Lemma insertionSort_spec (a : NameValueArray) :
  insertionSort a ≡ₚ a ∧ StronglySorted name_le (insertionSort a).
Proof.
  unfold insertionSort, NameValueArray.Len.
  destruct a as [|x a]; [split; [done|constructor]|].
  destruct (insertionSort_prefix [x] a) as (r & Hr & Hsorted & Hperm).
  { repeat constructor. }
  cbn [length Nat.sub] in *. rewrite ?Nat.sub_0_r. simpl in Hr. rewrite Hr.
  split.
  - by rewrite reverse_Permutation, Hperm.
  - clear -Hsorted. induction Hsorted as [|y r Hs IH Hy].
    + constructor.
    + rewrite reverse_cons. apply StronglySorted_app_2; [|done|repeat constructor].
      intros z1 z2 Hz1 ->%list_elem_of_singleton.
      rewrite elem_of_reverse in Hz1.
      rewrite Forall_forall in Hy. exact (Hy z1 Hz1).
Qed.

Example insertionSort_example :
  insertionSort [mkNameValue "SYS_B" 2; mkNameValue "__NR_open" 2;
                 mkNameValue "AT_FDCWD" 100; mkNameValue "O_RDWR" 2]
  = [mkNameValue "AT_FDCWD" 100; mkNameValue "O_RDWR" 2;
     mkNameValue "SYS_B" 2; mkNameValue "__NR_open" 2].
Proof. reflexivity. Qed.

(** ** Two runtimes

    The first ranges over a map in the order of [map_to_list] and sorts by
    insertion; the second ranges in the opposite order and sorts by
    merging. *)

Lemma sorted_not_Less (a : NameValueArray) (i j : nat) :
  StronglySorted name_le a →
  (i < j < NameValueArray.Len a)%nat →
  NameValueArray.Less a j i = false.
Proof.
  intros Hsorted [Hij Hj]. unfold NameValueArray.Less.
  destruct (a !! j) as [y|] eqn:Hy; [|done].
  destruct (a !! i) as [x|] eqn:Hx; [|done].
  apply not_true_is_false. rewrite GoString_lt_not_le. intros Hn. apply Hn.
  by apply (StronglySorted_lookup name_le a i j x y).
Qed.

Lemma insertionSort_not_Less (a : NameValueArray) (i j : nat) :
  (i < j < NameValueArray.Len (insertionSort a))%nat →
  NameValueArray.Less (insertionSort a) j i = false.
Proof. apply sorted_not_Less, insertionSort_spec. Qed.

Lemma merge_sort_not_Less (a : NameValueArray) (i j : nat) :
  (i < j < NameValueArray.Len (merge_sort name_le a))%nat →
  NameValueArray.Less (merge_sort name_le a) j i = false.
Proof. apply sorted_not_Less, StronglySorted_merge_sort; apply _. Qed.

Lemma reverse_map_to_list_perm K `{Countable K} V (m : gmap K V) :
  reverse (map_to_list m) ≡ₚ map_to_list m.
Proof. apply reverse_Permutation. Qed.

Definition Runtime_forward : Runtime := {|
  range_map K _ _ V m := map_to_list m;
  range_map_perm K _ _ V m := reflexivity (map_to_list m);
  sort_Sort := insertionSort;
  sort_Sort_perm a := proj1 (insertionSort_spec a);
  sort_Sort_sorted := insertionSort_not_Less
|}.

Definition Runtime_backward : Runtime := {|
  range_map K _ _ V m := reverse (map_to_list m);
  range_map_perm := reverse_map_to_list_perm;
  sort_Sort := merge_sort name_le;
  sort_Sort_perm := merge_sort_Permutation name_le;
  sort_Sort_sorted := merge_sort_not_Less
|}.


Example generateConsts_forward :
  generateConsts Runtime_forward "amd64" example_consts ""
  = "# AUTOGENERATED FILE" +:+ GoString.newline
    +:+ "AT_FDCWD = 18446744073709551516" +:+ GoString.newline
    +:+ "O_RDWR = 2" +:+ GoString.newline
    +:+ "SYS_B = 2" +:+ GoString.newline
    +:+ "__NR_open = 2" +:+ GoString.newline.
Proof. by vm_compute. Qed.

Example generateConsts_backward :
  generateConsts Runtime_backward "amd64" example_consts ""
  = generateConsts Runtime_forward "amd64" example_consts "".
Proof. by vm_compute. Qed.

Example range_orders_differ :
  range_map Runtime_backward example_consts
  ≠ range_map Runtime_forward example_consts.
Proof. by vm_compute. Qed.

Lemma digit_char_digit (d : N) : (d < 10)%N → digit_char (fmt.digit d) d.
Proof.
  intros Hd.
  assert (d = 0 ∨ d = 1 ∨ d = 2 ∨ d = 3 ∨ d = 4 ∨ d = 5 ∨ d = 6 ∨ d = 7
          ∨ d = 8 ∨ d = 9)%N as Hcases by lia.
  repeat destruct Hcases as [->|Hcases]; try subst d; constructor.
Qed.

Lemma decimal_numeral (s : string) (n : N) : decimal s n → numeral s n.
Proof.
  induction 1 as [d Hd|s n d Hs IH Hn Hd].
  - by apply numeral_digit, digit_char_digit.
  - by apply numeral_snoc; [| |apply digit_char_digit].
Qed.

Lemma records_const_lines (nv : list NameValue) :
  Forall (λ x, (val x < 2 ^ 64)%N) nv → records nv (const_lines nv).
Proof.
  induction 1 as [|x nv Hx Hnv IH]; [constructor|].
  change (const_lines (x :: nv)) with (const_line x +:+ const_lines nv).
  unfold const_line. rewrite !string_app_assoc.
  change (GoString.newline +:+ const_lines nv)
    with (String line_feed (const_lines nv)).
  apply records_cons; [|done].
  by apply decimal_numeral, fmtUint64_decimal.
Qed.

(** C2. For every map of constants with 64-bit values, [generateConsts]
    appends to its output the marker line [# AUTOGENERATED FILE] and then
    one line [name = value] for each element of an array [nv] that holds
    each constant of the map exactly once, the names ascending in the
    lexicographic order of their bytes, each value written as its decimal
    numeral in the digits [0] to [9], each line ended by a line feed. *)
Theorem generateConsts_sorted_lines (rt : Runtime) (arch : string)
    (consts : gmap string N) (out : string) :
  map_Forall (λ _ v, (v < 2 ^ 64)%N) consts →
  ∃ (nv : list NameValue) (lines : string),
    nv ≡ₚ pair_of_entry <$> map_to_list consts
    ∧ StronglySorted (λ x y, lexicographic_lt (name x) (name y)) nv
    ∧ records nv lines
    ∧ generateConsts rt arch consts out
      = out +:+ "# AUTOGENERATED FILE" +:+ String line_feed lines.
Proof.
  intros Hbound.
  exists (sorted_consts rt consts), (const_lines (sorted_consts rt consts)).
  split; [apply sorted_consts_perm|].
  split; [apply sorted_consts_ascending|].
  split.
  - apply records_const_lines. rewrite sorted_consts_perm.
    apply Forall_fmap, Forall_forall.
    intros [k v] Hkv%elem_of_map_to_list. by apply (Hbound k v).
  - rewrite generateConsts_lines. by rewrite !string_app_assoc.
Qed.

Lemma generateConsts_sorted_lines_witness :
  (∃ (nv : list NameValue) (lines : string),
     nv ≡ₚ pair_of_entry <$> map_to_list example_consts
     ∧ StronglySorted (λ x y, lexicographic_lt (name x) (name y)) nv
     ∧ records nv lines
     ∧ generateConsts Runtime_backward "amd64" example_consts ""
       = "" +:+ "# AUTOGENERATED FILE" +:+ String line_feed lines)
  ∧ generateConsts Runtime_backward "amd64" example_consts ""
    = "# AUTOGENERATED FILE" +:+ String line_feed
        ("AT_FDCWD = 18446744073709551516" +:+ String line_feed
        ("O_RDWR = 2" +:+ String line_feed
        ("SYS_B = 2" +:+ String line_feed
        ("__NR_open = 2" +:+ String line_feed "")))).
Proof.
  split.
  - apply (generateConsts_sorted_lines Runtime_backward "amd64"
             example_consts "").
    refine (bool_decide_unpack _ _). vm_compute. exact I.
  - vm_compute. reflexivity.
Defined.

(** C3. The output of [generateConsts] is determined by the map of
    constants alone: whatever the order in which the map is ranged over and
    whatever the sorting algorithm, the same bytes are written. *)
Theorem generateConsts_deterministic (rt1 rt2 : Runtime) (arch : string)
    (consts : gmap string N) (out : string) :
  generateConsts rt1 arch consts out = generateConsts rt2 arch consts out.
Proof.
  rewrite !generateConsts_lines. by rewrite (sorted_consts_unique rt1 rt2).
Qed.


(* ===================================================================== *)
(** * [isIdentifier] and [compileConsts] *)
(* ===================================================================== *)

(** ** Bytes and code points *)

Lemma byte_range (c : ascii) : 0 ≤ utf8.byte c < 256.
Proof.
  unfold utf8.byte. pose proof (N_ascii_bounded c). lia.
Qed.

Lemma at_range (s : string) (i : nat) : 0 ≤ utf8.at_ s i < 256.
Proof.
  unfold utf8.at_. destruct (String.get i s); [apply byte_range|lia].
Qed.

Lemma lor_lower_l (a b : Z) : 0 ≤ b → a ≤ Z.lor a b.
Proof.
  intros Hb. pose proof (Z.sub_lor_l_same_l b a) as Hsub.
  assert (0 ≤ Z.land b (Z.lnot a)) by (apply Z.land_nonneg; auto).
  lia.
Qed.

Lemma lor_lower_r (a b : Z) : 0 ≤ a → b ≤ Z.lor a b.
Proof. rewrite Z.lor_comm. apply lor_lower_l. Qed.

Lemma lor_ge_l (a b k : Z) : 0 ≤ b → k ≤ a → k ≤ Z.lor a b.
Proof. intros Hb Hk. pose proof (lor_lower_l a b Hb). lia. Qed.

Lemma lor_ge_r (a b k : Z) : 0 ≤ a → k ≤ b → k ≤ Z.lor a b.
Proof. intros Ha Hk. pose proof (lor_lower_r a b Ha). lia. Qed.

(** A byte below [0x80] is a code point of its own. *)
Lemma DecodeRune_ascii (c : ascii) (rest : string) :
  utf8.byte c < 0x80 →
  utf8.DecodeRuneInString (String c rest) = (utf8.byte c, 1%nat).
Proof.
  intros Hc. unfold utf8.DecodeRuneInString. simpl.
  unfold utf8.at_. simpl. unfold utf8.first.
  destruct (Z.ltb_spec (utf8.byte c) 128); [|lia]. simpl.
  by rewrite Z.land_m1_r, Z.lor_0_r.
Qed.

Ltac mask_to_mod :=
  change utf8.maskx with (Z.ones 6);
  change utf8.mask2 with (Z.ones 5);
  change utf8.mask3 with (Z.ones 4);
  change utf8.mask4 with (Z.ones 3);
  rewrite ?Z.land_ones, ?Z.shiftl_mul_pow2 by lia;
  repeat match goal with
         | |- context [2 ^ ?k] =>
             let v := eval vm_compute in (2 ^ k) in change (2 ^ k) with v
         end.

Lemma first_cases (s0 : Z) :
  0x80 ≤ s0 →
  utf8.first s0 = utf8.xx
  ∨ (utf8.first s0 = utf8.s1 ∧ 0xC2 ≤ s0 < 0xE0)
  ∨ (utf8.first s0 = utf8.s2 ∧ s0 = 0xE0)
  ∨ (utf8.first s0 = utf8.s3 ∧ 0xE1 ≤ s0 < 0xF0)
  ∨ (utf8.first s0 = utf8.s4 ∧ s0 = 0xED)
  ∨ (utf8.first s0 = utf8.s5 ∧ s0 = 0xF0)
  ∨ (utf8.first s0 = utf8.s6 ∧ 0xF1 ≤ s0 < 0xF4)
  ∨ (utf8.first s0 = utf8.s7 ∧ s0 = 0xF4).
Proof.
  intros Hs0. unfold utf8.first.
  repeat match goal with
         | |- context [Z.ltb ?a ?b] => destruct (Z.ltb_spec a b)
         | |- context [Z.eqb ?a ?b] => destruct (Z.eqb_spec a b)
         end; try lia; intuition lia.
Qed.

Ltac bool_facts :=
  repeat match goal with
         | H : (_ || _) = false |- _ =>
             apply orb_false_iff in H; destruct H
         | H : Z.ltb _ _ = false |- _ => apply Z.ltb_ge in H
         | H : context [(utf8.acceptRanges ?k).1] |- _ =>
             let v := eval vm_compute in (utf8.acceptRanges k).1 in
             change ((utf8.acceptRanges k).1) with v in H
         | H : context [(utf8.acceptRanges ?k).2] |- _ =>
             let v := eval vm_compute in (utf8.acceptRanges k).2 in
             change ((utf8.acceptRanges k).2) with v in H
         | H : _ = true |- _ => clear H
         | H : _ = false |- _ => clear H
         end;
  unfold utf8.locb, utf8.hicb in *.

Ltac mod_arith := solve [Z.div_mod_to_equations; lia].

Ltac lor_bound :=
  first
    [ mod_arith
    | apply lor_ge_l; [mod_arith|lor_bound]
    | apply lor_ge_r; [repeat (apply Z.lor_nonneg; split); mod_arith|mod_arith] ].

Ltac decode_leaves :=
  repeat match goal with
         | |- context [if ?b then _ else _] => destruct b eqn:?
         end; cbn [fst].

(** A byte from [0x80] on starts a code point that is not below [0x80]:
    either [RuneError], or the value of an encoding of two bytes or more. *)
Lemma DecodeRune_non_ascii (c : ascii) (rest : string) :
  0x80 ≤ utf8.byte c →
  0x80 ≤ (utf8.DecodeRuneInString (String c rest)).1.
Proof.
  intros Hc. pose proof (byte_range c) as Hr.
  unfold utf8.DecodeRuneInString.
  change (GoString.len (String c rest) <? 1)%nat with false. cbv iota.
  change (utf8.at_ (String c rest) 0) with (utf8.byte c).
  pose proof (at_range (String c rest) 1) as H1.
  pose proof (at_range (String c rest) 2) as H2.
  pose proof (at_range (String c rest) 3) as H3.
  generalize dependent (utf8.at_ (String c rest) 1). intros b1 H1.
  generalize dependent (utf8.at_ (String c rest) 2). intros b2 H2.
  generalize dependent (utf8.at_ (String c rest) 3). intros b3 H3.
  generalize dependent (utf8.byte c). intros s0 Hc Hr.
  generalize (GoString.len (String c rest)). intros n.
  destruct (first_cases s0 Hc)
    as [->|[[-> Hs]|[[-> Hs]|[[-> Hs]|[[-> Hs]|[[-> Hs]|[[-> Hs]|[-> Hs]]]]]]]];
    cbn -[Z.lor Z.land Z.shiftl Z.ltb Nat.ltb Z.leb]; decode_leaves;
    try done;
    [change (Z.lnot (-1)) with 0; by rewrite Z.land_0_r|..];
    bool_facts; mask_to_mod; lor_bound.
Qed.

Example DecodeRune_two_bytes :
  utf8.DecodeRuneInString (String "195" (String "169" "z")) = (0xE9, 2%nat).
Proof. reflexivity. Qed.

Example DecodeRune_three_bytes :
  utf8.DecodeRuneInString (String "226" (String "130" (String "172" "")))
  = (0x20AC, 3%nat).
Proof. reflexivity. Qed.

Example DecodeRune_four_bytes :
  utf8.DecodeRuneInString
    (String "240" (String "159" (String "152" (String "128" ""))))
  = (0x1F600, 4%nat).
Proof. reflexivity. Qed.

Example DecodeRune_overlong :
  utf8.DecodeRuneInString (String "192" (String "128" ""))
  = (utf8.RuneError, 1%nat).
Proof. reflexivity. Qed.

Example DecodeRune_truncated :
  utf8.DecodeRuneInString (String "226" (String "130" ""))
  = (utf8.RuneError, 1%nat).
Proof. reflexivity. Qed.

Example range_string_mixed :
  utf8.range_string ("a" +:+ String "195" (String "169" "b"))
  = [(0%nat, 97); (1%nat, 0xE9); (3%nat, 98)].
Proof. reflexivity. Qed.

(** ** [isIdentifier] *)

Lemma identifier_rune_high (i : nat) (r : Z) :
  0x80 ≤ r → identifier_rune i r = false.
Proof.
  intros Hr. unfold identifier_rune.
  assert ((r =? 95) = false) as -> by (apply Z.eqb_neq; lia).
  assert ((r <=? 122) = false) as -> by (apply Z.leb_gt; lia).
  assert ((r <=? 90) = false) as -> by (apply Z.leb_gt; lia).
  assert ((r <=? 57) = false) as -> by (apply Z.leb_gt; lia).
  by rewrite !andb_false_r.
Qed.

(** The loop accepts a string exactly when each byte passes the test at its
    own index: a byte that does not stand for itself is rejected, and so is
    the code point it starts. *)
Lemma isIdentifier_loop_bytes (i : nat) (s : string) :
  isIdentifier_loop (utf8.range_from 0 i s) = true
  ↔ ∀ k c, String.get k s = Some c →
           identifier_rune (i + k) (utf8.byte c) = true.
Proof.
  revert i. induction s as [|c rest IH]; intros i.
  - simpl. split; [intros _ k c' Hk; by destruct k|done].
  - cbn [utf8.range_from].
    destruct (Z.lt_ge_cases (utf8.byte c) 0x80) as [Hlo|Hhi].
    + rewrite DecodeRune_ascii by done. cbn [isIdentifier_loop Nat.sub].
      split.
      * intros Hloop k c' Hk.
        destruct (identifier_rune i (utf8.byte c)) eqn:Hc; [|done].
        destruct k as [|k]; simpl in Hk.
        -- simplify_eq. by rewrite Nat.add_0_r.
        -- apply IH with (k := k) (c := c') in Hloop; [|done].
           by rewrite <- Nat.add_succ_comm.
      * intros Hall. pose proof (Hall 0%nat c eq_refl) as Hc.
        rewrite Nat.add_0_r in Hc. rewrite Hc.
        apply IH. intros k c' Hk. rewrite Nat.add_succ_comm.
        by apply (Hall (S k)).
    + pose proof (DecodeRune_non_ascii c rest Hhi) as Hr.
      destruct (utf8.DecodeRuneInString (String c rest)) as [r w].
      cbn [isIdentifier_loop]. simpl in Hr.
      rewrite identifier_rune_high by done. split; [done|].
      intros Hall. specialize (Hall 0%nat c eq_refl).
      by rewrite identifier_rune_high in Hall.
Qed.


Lemma byte_underscore (c : ascii) : utf8.byte c = 95 ↔ c = "_"%char.
Proof.
  split; [|by intros ->]. intros Hc.
  rewrite <- (ascii_N_embedding c). unfold utf8.byte in Hc.
  by replace (N_of_ascii c) with 95%N by lia.
Qed.

Lemma identifier_rune_byte (i : nat) (c : ascii) :
  identifier_rune i (utf8.byte c) = true
  ↔ ascii_letter c ∨ c = "_"%char ∨ (ascii_digit c ∧ (0 < i)%nat).
Proof.
  unfold identifier_rune, ascii_letter, ascii_digit.
  rewrite <- byte_underscore.
  rewrite !orb_true_iff, !andb_true_iff, Z.eqb_eq, !Z.leb_le, Nat.ltb_lt.
  tauto.
Qed.

Lemma isIdentifier_valid (s : string) :
  isIdentifier s = true ↔ valid_identifier s.
Proof.
  unfold isIdentifier, utf8.range_string, valid_identifier.
  rewrite isIdentifier_loop_bytes.
  split; intros Hs i c Hi; apply identifier_rune_byte, Hs, Hi.
Qed.

Example isIdentifier_O_RDWR : isIdentifier "O_RDWR" = true.
Proof. reflexivity. Qed.

Example isIdentifier_number : isIdentifier "0x1000" = false.
Proof. reflexivity. Qed.

Example isIdentifier_digit_inside : isIdentifier "SOL_IPV6" = true.
Proof. reflexivity. Qed.

Example isIdentifier_non_ascii :
  isIdentifier ("caf" +:+ String "195" (String "169" "")) = false.
Proof. reflexivity. Qed.

(** ** [compileConsts]: the set [vals] and the slice [valArr] *)

Lemma insert_all_lookup (vals : gmap string bool) (l : list string)
    (x : string) :
  is_Some (foldl (λ vals v, <[v:=true]> vals) vals l !! x)
  ↔ is_Some (vals !! x) ∨ x ∈ l.
Proof.
  revert vals. induction l as [|v l IH]; intros vals; simpl.
  - rewrite elem_of_nil. tauto.
  - rewrite IH, elem_of_cons, lookup_insert_is_Some.
    destruct (decide (v = x)) as [->|Hne]; [tauto|].
    split; [intros [[?|[_ ?]]|?]|intros [?|[?|?]]]; auto; congruence.
Qed.

Lemma insert_lists_lookup {A} (f : A → list string)
    (vals : gmap string bool) (l : list (string * A)) (x : string) :
  is_Some (foldl (λ vals '(_, a), foldl (λ vals v, <[v:=true]> vals) vals (f a))
                 vals l !! x)
  ↔ is_Some (vals !! x) ∨ ∃ e, e ∈ l ∧ x ∈ f e.2.
Proof.
  revert vals. induction l as [|[k a] l IH]; intros vals; simpl.
  - split; [auto|]. intros [?|(e & []%elem_of_nil & _)]. done.
  - rewrite IH, insert_all_lookup. split.
    + intros [[?|?]|(e & ? & ?)]; [auto| |].
      * right. exists (k, a). split; [apply list_elem_of_here|done].
      * right. exists e. split; [by apply list_elem_of_further|done].
    + intros [?|(e & [->|?]%elem_of_cons & ?)]; [auto|auto|eauto].
Qed.

Lemma insert_keys_lookup {A} (vals : gmap string bool)
    (l : list (string * A)) (x : string) :
  is_Some (foldl (λ vals '(v, _), <[v:=true]> vals) vals l !! x)
  ↔ is_Some (vals !! x) ∨ x ∈ l.*1.
Proof.
  revert vals. induction l as [|[k a] l IH]; intros vals; simpl.
  - rewrite elem_of_nil. tauto.
  - rewrite IH, elem_of_cons, lookup_insert_is_Some.
    destruct (decide (k = x)) as [->|Hne]; [tauto|].
    split; [intros [[?|[_ ?]]|?]|intros [?|[?|?]]]; auto; congruence.
Qed.

Lemma insert_syscalls_lookup (vals : gmap string bool) (l : list Syscall)
    (x : string) :
  is_Some (foldl (λ vals sc,
                    if GoString.HasPrefix (CallName sc) "syz_" then vals
                    else <["__NR_" +:+ CallName sc := true]> vals)
                 vals l !! x)
  ↔ is_Some (vals !! x)
    ∨ ∃ sc, sc ∈ l ∧ GoString.HasPrefix (CallName sc) "syz_" = false
            ∧ x = "__NR_" +:+ CallName sc.
Proof.
  revert vals. induction l as [|sc l IH]; intros vals; simpl.
  - split; [auto|]. intros [?|(sc & []%elem_of_nil & _)]. done.
  - rewrite IH. setoid_rewrite elem_of_cons.
    destruct (GoString.HasPrefix (CallName sc) "syz_") eqn:Hsc.
    + split; [intros [?|(sc' & ? & ?)]; eauto|].
      intros [?|(sc' & [->|?] & Hsc' & ?)]; eauto. congruence.
    + rewrite lookup_insert_is_Some. split.
      * intros [[<-|[_ ?]]|(sc' & ? & ?)]; eauto 10.
      * intros [?|(sc' & [->|?] & Hsc' & Hx)]; [|by auto|by eauto 10].
        destruct (decide ("__NR_" +:+ CallName sc = x)); eauto.
Qed.

Lemma elem_of_range_map rt {A} (m : gmap string A) (e : string * A) :
  e ∈ range_map rt m ↔ m !! e.1 = Some e.2.
Proof.
  rewrite range_map_perm. destruct e as [k a]. apply elem_of_map_to_list.
Qed.

Lemma elem_of_range_map_keys rt {A} (m : gmap string A) (k : string) :
  k ∈ (range_map rt m).*1 ↔ is_Some (m !! k).
Proof.
  rewrite list_elem_of_fmap. split.
  - intros ([k' a] & -> & He). apply elem_of_range_map in He. eauto.
  - intros [a Ha]. exists (k, a). split; [done|]. by apply elem_of_range_map.
Qed.

Lemma identifiers_of_filter rt (vals : gmap string bool) :
  identifiers_of rt vals
  = filter (λ v, isIdentifier v = true) (range_map rt vals).*1.
Proof.
  unfold identifiers_of.
  assert (∀ (l : list (string * bool)) acc,
    foldl (λ (valArr : list string) '(v, _),
             if negb (isIdentifier v) then valArr else valArr ++ [v]) acc l
    = acc ++ filter (λ v, isIdentifier v = true) (l.*1)) as Hfold.
  { induction l as [|[v b] l IH]; intros acc; simpl.
    - by rewrite app_nil_r.
    - rewrite IH, filter_cons.
      destruct (decide (isIdentifier v = true)) as [Hv|Hv].
      + rewrite Hv. simpl. by rewrite <- app_assoc.
      + apply not_true_is_false in Hv. by rewrite Hv. }
  apply Hfold.
Qed.

(** [valArr] holds the collected symbols that pass [isIdentifier], and no
    others. *)
Lemma elem_of_identifiers_of rt (vals : gmap string bool) (v : string) :
  v ∈ identifiers_of rt vals ↔ is_Some (vals !! v) ∧ isIdentifier v = true.
Proof.
  rewrite identifiers_of_filter, list_elem_of_filter, elem_of_range_map_keys.
  tauto.
Qed.

(** The symbols [compileConsts] collects, by where they come from. *)
Lemma collect_vals_lookup (rt : Runtime) (desc : Description) (v : string) :
  is_Some (collect_vals rt desc !! v)
  ↔ (∃ flag fvals, Flags desc !! flag = Some fvals ∧ v ∈ fvals)
    ∨ is_Some (Defines desc !! v)
    ∨ (∃ sc, sc ∈ Syscalls desc
             ∧ GoString.HasPrefix (CallName sc) "syz_" = false
             ∧ v = "__NR_" +:+ CallName sc)
    ∨ (∃ r res, Resources desc !! r = Some res ∧ v ∈ Values res).
Proof.
  unfold collect_vals.
  rewrite (insert_lists_lookup Values), insert_syscalls_lookup,
    insert_keys_lookup, (insert_lists_lookup id).
  rewrite lookup_empty, elem_of_range_map_keys.
  assert (∀ A (f : A → list string) (m : gmap string A),
    (∃ e, e ∈ range_map rt m ∧ v ∈ f e.2)
    ↔ ∃ k a, m !! k = Some a ∧ v ∈ f a) as Hin.
  { intros A f m. split.
    - intros ([k a] & He & Hv). apply elem_of_range_map in He. eauto.
    - intros (k & a & Hk & Hv). exists (k, a). split; [|done].
      by apply elem_of_range_map. }
  rewrite !Hin. unfold id. rewrite is_Some_alt. tauto.
Qed.

Lemma HasPrefix_false (s prefix : string) :
  GoString.HasPrefix s prefix = false ↔ ¬ starts_with prefix s.
Proof.
  unfold starts_with. rewrite <- HasPrefix_true.
  by destruct (GoString.HasPrefix s prefix).
Qed.

(** C4. The set of symbols [compileConsts] collects from a description
    consists of the values of every flag, the names of the defines, the
    symbol [__NR_] followed by the call name for the syscalls whose call
    name does not start with [syz_], and the values of every resource.
    A syscall whose call name starts with [syz_] contributes nothing: its
    [__NR_] symbol is in the set only when a flag, a define or a resource
    spells it out. *)
Theorem collect_vals_symbols (rt : Runtime) (desc : Description) :
  (∀ v,
     is_Some (collect_vals rt desc !! v)
     ↔ (∃ flag fvals, Flags desc !! flag = Some fvals ∧ v ∈ fvals)
       ∨ is_Some (Defines desc !! v)
       ∨ (∃ sc, sc ∈ Syscalls desc
                ∧ ¬ starts_with "syz_" (CallName sc)
                ∧ v = "__NR_" +:+ CallName sc)
       ∨ (∃ r res, Resources desc !! r = Some res ∧ v ∈ Values res))
  ∧ (∀ sc,
       starts_with "syz_" (CallName sc) →
       is_Some (collect_vals rt desc !! ("__NR_" +:+ CallName sc))
       ↔ (∃ flag fvals, Flags desc !! flag = Some fvals
                        ∧ "__NR_" +:+ CallName sc ∈ fvals)
         ∨ is_Some (Defines desc !! ("__NR_" +:+ CallName sc))
         ∨ (∃ r res, Resources desc !! r = Some res
                     ∧ "__NR_" +:+ CallName sc ∈ Values res)).
Proof.
  assert (∀ v,
    is_Some (collect_vals rt desc !! v)
    ↔ (∃ flag fvals, Flags desc !! flag = Some fvals ∧ v ∈ fvals)
      ∨ is_Some (Defines desc !! v)
      ∨ (∃ sc, sc ∈ Syscalls desc
               ∧ ¬ starts_with "syz_" (CallName sc)
               ∧ v = "__NR_" +:+ CallName sc)
      ∨ (∃ r res, Resources desc !! r = Some res ∧ v ∈ Values res)) as Hall.
  { intros v. rewrite collect_vals_lookup.
    by setoid_rewrite HasPrefix_false. }
  split; [exact Hall|].
  intros sc Hpseudo. rewrite Hall. split.
  - intros [?|[?|[(sc' & _ & Hsc' & Heq)|?]]]; auto.
    apply (inj (String.app "__NR_")) in Heq. congruence.
  - intros [?|[?|?]]; auto.
Qed.

Lemma collect_vals_symbols_witness :
  is_Some (collect_vals Runtime_forward example_desc !! "__NR_open")
  ∧ collect_vals Runtime_forward example_desc !! "__NR_syz_open_dev" = None
  ∧ (is_Some (collect_vals Runtime_forward example_desc
                !! ("__NR_" +:+ CallName (mkSyscall "syz_open_dev")))
     ↔ (∃ flag fvals,
          Flags example_desc !! flag = Some fvals
          ∧ "__NR_" +:+ CallName (mkSyscall "syz_open_dev") ∈ fvals)
       ∨ is_Some (Defines example_desc
                    !! ("__NR_" +:+ CallName (mkSyscall "syz_open_dev")))
       ∨ (∃ r res,
            Resources example_desc !! r = Some res
            ∧ "__NR_" +:+ CallName (mkSyscall "syz_open_dev") ∈ Values res)).
Proof.
  split; [|split].
  - apply (proj1 (collect_vals_symbols Runtime_forward example_desc)).
    right. right. left. exists (mkSyscall "open").
    split; [apply list_elem_of_here|]. split; [|done].
    intros [rest Hrest]. discriminate Hrest.
  - reflexivity.
  - apply (proj2 (collect_vals_symbols Runtime_forward example_desc)
                 (mkSyscall "syz_open_dev")).
    by exists "open_dev".
Defined.


(* ===================================================================== *)
(** * The claims about whole runs *)
(* ===================================================================== *)

(** ** Events of a run *)

Lemma build_dir_log_Stderr (cl : CmdLine) (e : event) :
  e ∈ build_dir_log cl → ∃ text, e = Stderr text.
Proof.
  unfold build_dir_log. destruct (_ && _).
  - intros ->%list_elem_of_singleton. eauto.
  - by intros ?%elem_of_nil.
Qed.

(** The runs of [main] with the run of [compileConsts] spelled out: every
    run is one of ten sequences of events. *)
Ltac main_cases rt w cl :=
  let run := fresh "run" in
  let Hrun := fresh "Hrun" in
  pose proof (main_runs rt w cl) as Hrun;
  remember (main rt w cl) as run;
  destruct Hrun;
  try match goal with
      | Hc : compileConsts rt w ?cl' ?arch ?desc = _ |- _ =>
          let Hr := fresh "Hcrun" in
          pose proof (compileConsts_runs rt w cl' arch desc) as Hr;
          rewrite Hc in Hr; inversion Hr; subst; clear Hr
      end;
  unfold trace, exit_status in *; cbn [fst snd] in *.

Ltac elems :=
  repeat match goal with
         | H : _ ∈ _ ++ _ |- _ => apply elem_of_app in H; destruct H
         | H : _ ∈ _ :: _ |- _ => apply elem_of_cons in H; destruct H
         | H : _ ∈ [] |- _ => by apply elem_of_nil in H
         | H : ?e ∈ build_dir_log _ |- _ =>
             apply build_dir_log_Stderr in H; destruct H as [? ?]
         end;
  simplify_eq.

(** C7. The registry of architectures holds [amd64], [arm64] and
    [ppc64le] and nothing else, each with its preprocessor defines, its
    directory of kernel headers, its kernel include and its compiler flags.
    When the [-arch] flag is absent (it is then the empty string) or names
    no architecture of the registry, [main] prints a diagnostic on standard
    error and exits with status 1, and it has not opened the input file. *)
Theorem unknown_arch_exits (rt : Runtime) (w : World) (cl : CmdLine) :
  (dom archs = {["amd64"; "arm64"; "ppc64le"]}
   ∧ archs !! "amd64"
     = Some (mkArch ["__x86_64__"] "x86" "asm/unistd.h" ["-m64"])
   ∧ archs !! "arm64"
     = Some (mkArch ["__aarch64__"] "arm64" "asm/unistd.h" [])
   ∧ archs !! "ppc64le"
     = Some (mkArch ["__ppc64__"; "__PPC64__"; "__powerpc64__"] "powerpc"
                    "asm/unistd.h" ["-D__powerpc64__"]))
  ∧ (flagArch cl = "" ∨ flagArch cl ∉ dom archs →
     exit_status (main rt w cl) = 1
     ∧ (∃ t text, trace (main rt w cl) = t ++ [Stderr text])
     ∧ ∀ name res, Open name res ∉ trace (main rt w cl)).
Proof.
  split.
  { split; [|done]. unfold archs. rewrite !dom_insert_L, dom_empty_L.
    set_solver. }
  intros Hbad.
  assert (archs !! flagArch cl = None) as Hnone.
  { destruct Hbad as [->|Hbad]; [done|]. by apply not_elem_of_dom. }
  main_cases rt w cl; try congruence.
  - split; [done|]. split; [by eexists [], _|]. intros n r Hin. elems.
  - split; [done|]. split; [by eexists _, _|]. intros n r Hin. elems.
  - split; [done|]. split; [by eexists _, _|]. intros n r Hin. elems.
Qed.

(** ** Example runs *)


Example main_example :
  main Runtime_forward
       (example_world example_desc (Ok {["O_RDWR" := 2%N]}) None)
       (example_cmdline "arm64" "sys/test.txt")
  = ([Stderr ("No kernel build directory provided, assuming in-place build"
              +:+ GoString.newline);
      Open "sys/test.txt" (Ok "include <linux/fcntl.h>");
      FetchValues
        (mkFetchCall (mkCmdLine "/linux" "/linux" "arm64" 1 ["sys/test.txt"])
           "arm64"
           (identifiers_of Runtime_forward
              (collect_vals Runtime_forward example_desc))
           ["linux/fcntl.h"; "asm/unistd.h"] [] {["MY_DEFINE" := "1"]} [])
        (Ok {["O_RDWR" := 2%N]});
      WriteFile "sys/test_arm64.const"
        ("# AUTOGENERATED FILE" +:+ GoString.newline
         +:+ "O_RDWR = 2" +:+ GoString.newline) None],
     Returned tt).
Proof. by vm_compute. Qed.

Example identifiers_forward :
  identifiers_of Runtime_forward (collect_vals Runtime_forward example_desc)
  = ["__NR_open"; "O_RDWR"; "MY_DEFINE"; "AT_FDCWD"; ""].
Proof. by vm_compute. Qed.

Example identifiers_backward :
  identifiers_of Runtime_backward (collect_vals Runtime_backward example_desc)
  = [""; "AT_FDCWD"; "MY_DEFINE"; "O_RDWR"; "__NR_open"].
Proof. by vm_compute. Qed.

Lemma unknown_arch_exits_witness :
  exit_status (main Runtime_forward
                 (example_world example_desc (Ok ∅) None)
                 (example_cmdline "riscv64" "sys/test.txt")) = 1
  ∧ (∃ t text,
       trace (main Runtime_forward
                (example_world example_desc (Ok ∅) None)
                (example_cmdline "riscv64" "sys/test.txt"))
       = t ++ [Stderr text])
  ∧ ∀ name res,
      Open name res
      ∉ trace (main Runtime_forward
                 (example_world example_desc (Ok ∅) None)
                 (example_cmdline "riscv64" "sys/test.txt")).
Proof.
  apply (unknown_arch_exits Runtime_forward
           (example_world example_desc (Ok ∅) None)
           (example_cmdline "riscv64" "sys/test.txt")).
  right. apply not_elem_of_dom. reflexivity.
Defined.

(** ** The symbols handed to the resolver *)

(** C5. The symbols of a call of [fetchValues] are the collected symbols
    that are valid identifiers (every byte an ASCII letter or an underscore,
    or an ASCII digit that is not the first byte) and no others; the
    symbols that fail the test are dropped without a diagnostic: the call
    is the first event of [compileConsts], and a line on standard error
    follows only when the resolver itself reports an error. *)
Theorem fetched_symbols_are_identifiers (rt : Runtime) (w : World)
    (cl : CmdLine) (arch : Arch) (desc : Description)
    (call : FetchCall) (res : result (gmap string N)) :
  FetchValues call res ∈ trace (compileConsts rt w cl arch desc) →
  (∀ v, v ∈ fc_vals call
        ↔ is_Some (collect_vals rt desc !! v) ∧ valid_identifier v)
  ∧ trace (compileConsts rt w cl arch desc)
    = FetchValues call res
        :: match res with
           | Ok _ => []
           | Err err => [Stderr (err +:+ GoString.newline)]
           end.
Proof.
  intros Hin.
  assert (∀ v, v ∈ identifiers_of rt (collect_vals rt desc)
               ↔ is_Some (collect_vals rt desc !! v) ∧ valid_identifier v)
    as Hids.
  { intros v. by rewrite elem_of_identifiers_of, isIdentifier_valid. }
  destruct (compileConsts_runs rt w cl arch desc)
    as [?|call' consts ? -> Hres|call' err ? -> Hres];
    unfold trace in *; cbn [fst] in *; elems.
  - done.
  - done.
Qed.

Lemma fetched_symbols_are_identifiers_witness :
  (∀ v, v ∈ ["__NR_open"; "O_RDWR"; "MY_DEFINE"; "AT_FDCWD"; ""]
        ↔ is_Some (collect_vals Runtime_forward example_desc !! v)
          ∧ valid_identifier v)
  ∧ trace (compileConsts Runtime_forward
             (example_world example_desc (Err "undefined: MY_DEFINE") None)
             (example_cmdline "amd64" "sys/test.txt")
             (mkArch ["__x86_64__"] "x86" "asm/unistd.h" ["-m64"])
             example_desc)
    = [FetchValues
         (mkFetchCall (example_cmdline "amd64" "sys/test.txt") "x86"
            ["__NR_open"; "O_RDWR"; "MY_DEFINE"; "AT_FDCWD"; ""]
            ["linux/fcntl.h"; "asm/unistd.h"] [] {["MY_DEFINE" := "1"]}
            ["-m64"])
         (Err "undefined: MY_DEFINE");
       Stderr ("undefined: MY_DEFINE" +:+ GoString.newline)].
Proof.
  apply (fetched_symbols_are_identifiers Runtime_forward
           (example_world example_desc (Err "undefined: MY_DEFINE") None)
           (example_cmdline "amd64" "sys/test.txt")
           (mkArch ["__x86_64__"] "x86" "asm/unistd.h" ["-m64"])
           example_desc
           (mkFetchCall (example_cmdline "amd64" "sys/test.txt") "x86"
              ["__NR_open"; "O_RDWR"; "MY_DEFINE"; "AT_FDCWD"; ""]
              ["linux/fcntl.h"; "asm/unistd.h"] [] {["MY_DEFINE" := "1"]}
              ["-m64"])
           (Err "undefined: MY_DEFINE")).
  vm_compute. apply list_elem_of_here.
Defined.

(** C9. [isIdentifier] accepts the empty string, so when the empty string
    is among the collected symbols, [compileConsts] calls the resolver and
    the empty string is one of the symbols of the call. *)
Theorem empty_symbol_is_fetched (rt : Runtime) (w : World) (cl : CmdLine)
    (arch : Arch) (desc : Description) :
  is_Some (collect_vals rt desc !! "") →
  isIdentifier "" = true
  ∧ ∃ call,
      FetchValues call (fetchValues w call)
        ∈ trace (compileConsts rt w cl arch desc)
      ∧ "" ∈ fc_vals call.
Proof.
  intros Hcollected. split; [done|].
  assert ("" ∈ identifiers_of rt (collect_vals rt desc)) as Hin
    by (by apply elem_of_identifiers_of).
  destruct (compileConsts_runs rt w cl arch desc)
    as [Hnil|call consts ? -> Hres|call err ? -> Hres];
    unfold trace; cbn [fst].
  - rewrite Hnil in Hin. by apply elem_of_nil in Hin.
  - eexists. rewrite Hres. split; [apply list_elem_of_here|done].
  - eexists. rewrite Hres. split; [apply list_elem_of_here|done].
Qed.

Lemma empty_symbol_is_fetched_witness :
  isIdentifier "" = true
  ∧ ∃ call,
      FetchValues call
        (fetchValues (example_world example_desc (Ok ∅) None) call)
        ∈ trace (compileConsts Runtime_backward
                   (example_world example_desc (Ok ∅) None)
                   (example_cmdline "amd64" "sys/test.txt")
                   (mkArch ["__x86_64__"] "x86" "asm/unistd.h" ["-m64"])
                   example_desc)
      ∧ "" ∈ fc_vals call.
Proof.
  apply (empty_symbol_is_fetched Runtime_backward
           (example_world example_desc (Ok ∅) None)
           (example_cmdline "amd64" "sys/test.txt")
           (mkArch ["__x86_64__"] "x86" "asm/unistd.h" ["-m64"])
           example_desc).
  vm_compute. eexists. reflexivity.
Defined.

(** ** Where and when the output is written *)

Lemma archs_empty_name : archs !! "" = None.
Proof. reflexivity. Qed.

Lemma generateConsts_empty (rt : Runtime) (arch : string) :
  generateConsts rt arch ∅ "" = "# AUTOGENERATED FILE" +:+ GoString.newline.
Proof.
  rewrite generateConsts_lines.
  assert (sorted_consts rt ∅ = []) as ->; [|done].
  apply Permutation_nil_r. rewrite sorted_consts_perm.
  by rewrite map_to_list_empty.
Qed.

(** C1, as the code has it. [main] writes to the path made of the input
    path without a final [.txt], an underscore, the architecture name and
    [.const].  When the extension of the input path is [.txt] this is the
    path without its extension, followed by [_<arch>.const]; an input path
    that does not end in [.txt] is kept whole. *)
Theorem output_path_trims_txt (rt : Runtime) (w : World) (cl : CmdLine)
    (name data : string) (err : option string) :
  WriteFile name data err ∈ trace (main rt w cl) →
  ∃ inname,
    Args cl = [inname]
    ∧ name = outname inname (flagArch cl)
    ∧ (SpecPath.Ext inname = ".txt" →
       name = SpecPath.outname_spec inname (flagArch cl))
    ∧ (GoString.HasSuffix inname ".txt" = false →
       name = inname +:+ "_" +:+ flagArch cl +:+ ".const").
Proof.
  intros Hin.
  assert (∃ inname, Args cl = [inname]
                    ∧ name = outname inname (flagArch cl))
    as (inname & Hargs & ->).
  { main_cases rt w cl; elems; eauto. }
  exists inname. split; [done|]. split; [done|]. split.
  - intros Hext. unfold outname, SpecPath.outname_spec.
    destruct (Ext_suffix inname ".txt" Hext) as (base & -> & ->); [done|].
    by rewrite TrimSuffix_app.
  - intros Hsuffix. unfold outname. by rewrite TrimSuffix_other.
Qed.

Lemma output_path_trims_txt_witness :
  ∃ inname,
    Args (example_cmdline "amd64" "sys/test.txt") = [inname]
    ∧ "sys/test_amd64.const"
      = outname inname (flagArch (example_cmdline "amd64" "sys/test.txt"))
    ∧ (SpecPath.Ext inname = ".txt" →
       "sys/test_amd64.const"
       = SpecPath.outname_spec inname
           (flagArch (example_cmdline "amd64" "sys/test.txt")))
    ∧ (GoString.HasSuffix inname ".txt" = false →
       "sys/test_amd64.const"
       = inname +:+ "_"
         +:+ flagArch (example_cmdline "amd64" "sys/test.txt") +:+ ".const").
Proof.
  apply (output_path_trims_txt Runtime_forward
           (example_world literal_desc (Ok ∅) None)
           (example_cmdline "amd64" "sys/test.txt")
           "sys/test_amd64.const"
           ("# AUTOGENERATED FILE" +:+ GoString.newline) None).
  vm_compute. do 2 apply list_elem_of_further. apply list_elem_of_here.
Defined.

(** An input path with another extension keeps it: for [sys/foo.c] and
    [amd64] the tool writes to [sys/foo.c_amd64.const], where removing the
    extension would give [sys/foo_amd64.const]. *)
Lemma output_path_keeps_other_extension :
  WriteFile "sys/foo.c_amd64.const"
            ("# AUTOGENERATED FILE" +:+ GoString.newline) None
    ∈ trace (main Runtime_forward
               (example_world literal_desc (Ok ∅) None)
               (example_cmdline "amd64" "sys/foo.c"))
  ∧ outname "sys/foo.c" "amd64" = "sys/foo.c_amd64.const"
  ∧ SpecPath.outname_spec "sys/foo.c" "amd64" = "sys/foo_amd64.const"
  ∧ outname "sys/foo.c" "amd64" ≠ SpecPath.outname_spec "sys/foo.c" "amd64".
Proof.
  split; [|done].
  vm_compute. do 2 apply list_elem_of_further. apply list_elem_of_here.
Qed.

(** C10. When no collected symbol is an identifier, [compileConsts]
    returns the empty map and has called nothing; [main] then hands
    [osutil.WriteFile] the marker line alone, and exits with status 0 when
    the file is written. *)
Theorem no_identifiers_marker_only (rt : Runtime) (w : World) (cl : CmdLine)
    (arch : Arch) (inname inf : string) :
  flagLinux cl ≠ "" →
  archs !! flagArch cl = Some arch →
  Args cl = [inname] →
  os_Open w inname = Ok inf →
  (∀ v, is_Some (collect_vals rt (Parse w inf) !! v) →
        isIdentifier v = false) →
  osutil_WriteFile w (outname inname (flagArch cl))
    ("# AUTOGENERATED FILE" +:+ GoString.newline) = None →
  compileConsts rt w (with_build_dir cl) arch (Parse w inf)
    = ([], Returned ∅)
  ∧ main rt w cl
    = (build_dir_log cl
         ++ [Open inname (Ok inf);
             WriteFile (outname inname (flagArch cl))
               ("# AUTOGENERATED FILE" +:+ GoString.newline) None],
       Returned tt)
  ∧ exit_status (main rt w cl) = 0.
Proof.
  intros Hlinux Harch Hargs Hopen Hnone Hwrite.
  assert (identifiers_of rt (collect_vals rt (Parse w inf)) = []) as Hids.
  { apply elem_of_nil_inv. intros v [Hv Hid]%elem_of_identifiers_of.
    apply Hnone in Hv. congruence. }
  assert (compileConsts rt w (with_build_dir cl) arch (Parse w inf)
          = ([], Returned ∅)) as Hcompile.
  { unfold compileConsts. by rewrite Hids. }
  split; [done|].
  assert (main rt w cl
          = (build_dir_log cl
               ++ [Open inname (Ok inf);
                   WriteFile (outname inname (flagArch cl))
                     ("# AUTOGENERATED FILE" +:+ GoString.newline) None],
             Returned tt)) as Hmain; [|by rewrite Hmain].
  pose proof archs_empty_name as Hempty.
  main_cases rt w cl; try congruence;
    repeat match goal with
           | H : Args cl = [?a] |- _ =>
               lazymatch a with
               | inname => fail
               | _ => assert (a = inname) as -> by congruence
               end
           | H : os_Open w inname = Ok ?a |- _ =>
               lazymatch a with
               | inf => fail
               | _ => assert (a = inf) as -> by congruence
               end
           end;
    rewrite ?generateConsts_empty in *; simpl; congruence.
Qed.

Lemma no_identifiers_marker_only_witness :
  compileConsts Runtime_forward (example_world literal_desc (Err "unused") None)
    (with_build_dir (example_cmdline "ppc64le" "sys/test.txt"))
    (mkArch ["__ppc64__"; "__PPC64__"; "__powerpc64__"] "powerpc"
            "asm/unistd.h" ["-D__powerpc64__"])
    (Parse (example_world literal_desc (Err "unused") None)
           "include <linux/fcntl.h>")
    = ([], Returned ∅)
  ∧ main Runtime_forward (example_world literal_desc (Err "unused") None)
      (example_cmdline "ppc64le" "sys/test.txt")
    = (build_dir_log (example_cmdline "ppc64le" "sys/test.txt")
         ++ [Open "sys/test.txt" (Ok "include <linux/fcntl.h>");
             WriteFile
               (outname "sys/test.txt"
                  (flagArch (example_cmdline "ppc64le" "sys/test.txt")))
               ("# AUTOGENERATED FILE" +:+ GoString.newline) None],
       Returned tt)
  ∧ exit_status
      (main Runtime_forward (example_world literal_desc (Err "unused") None)
         (example_cmdline "ppc64le" "sys/test.txt")) = 0.
Proof.
  apply (no_identifiers_marker_only Runtime_forward
           (example_world literal_desc (Err "unused") None)
           (example_cmdline "ppc64le" "sys/test.txt")
           (mkArch ["__ppc64__"; "__PPC64__"; "__powerpc64__"] "powerpc"
                   "asm/unistd.h" ["-D__powerpc64__"])
           "sys/test.txt" "include <linux/fcntl.h>").
  - done.
  - reflexivity.
  - reflexivity.
  - reflexivity.
  - intros v Hv. apply collect_vals_lookup in Hv.
    destruct Hv as [(flag & fvals & Hflag & Hv)|[Hv|[Hv|Hv]]].
    + simpl in Hflag. apply lookup_singleton_Some in Hflag as [<- <-].
      apply elem_of_cons in Hv as [->|Hv]; [reflexivity|].
      apply list_elem_of_singleton in Hv as ->. reflexivity.
    + simpl in Hv. rewrite lookup_empty in Hv. by destruct Hv.
    + destruct Hv as (sc & Hsc & Hprefix & _). simpl in Hsc.
      apply list_elem_of_singleton in Hsc as ->. done.
    + destruct Hv as (r & res & Hr & _). simpl in Hr.
      by rewrite lookup_empty in Hr.
  - reflexivity.
Defined.

Ltac last_event :=
  repeat (rewrite ?last_app, ?last_cons; cbn [last app]).

(** C6. When [fetchValues] returns an error, [main] ends with that error
    on standard error and exit status 1, and [osutil.WriteFile] has not been
    called.  When [osutil.WriteFile] returns an error, [main] ends with a
    diagnostic on standard error and exit status 1.  In every run
    [osutil.WriteFile] is called at most once, with the whole output of
    [generateConsts] for the constants [compileConsts] returned, and every
    call of the resolver comes before it. *)
Theorem failure_exits_without_partial_output (rt : Runtime) (w : World)
    (cl : CmdLine) :
  (∀ call err,
     FetchValues call (Err err) ∈ trace (main rt w cl) →
     exit_status (main rt w cl) = 1
     ∧ last (trace (main rt w cl)) = Some (Stderr (err +:+ GoString.newline))
     ∧ ∀ name data res, WriteFile name data res ∉ trace (main rt w cl))
  ∧ (∀ name data err,
       WriteFile name data (Some err) ∈ trace (main rt w cl) →
       exit_status (main rt w cl) = 1
       ∧ last (trace (main rt w cl))
         = Some (Stderr (("failed to write output file: " +:+ err)
                         +:+ GoString.newline)))
  ∧ (∀ name data res,
       WriteFile name data res ∈ trace (main rt w cl) →
       ∃ before after consts,
         trace (main rt w cl) = before ++ WriteFile name data res :: after
         ∧ data = generateConsts rt (flagArch cl) consts ""
         ∧ (∀ name' data' res', WriteFile name' data' res' ∉ before ++ after)
         ∧ (∀ call fetched,
              FetchValues call fetched ∈ trace (main rt w cl) →
              fetched = Ok consts ∧ FetchValues call fetched ∈ before)).
Proof.
  split; [|split].
  - intros call err Hin.
    main_cases rt w cl; elems.
    split; [done|]. split; [by last_event|].
    intros name data res Hw. elems.
  - intros name data err Hin.
    main_cases rt w cl; elems; split; try done; by last_event.
  - intros name data res Hin.
    main_cases rt w cl; elems.
    all: eexists (build_dir_log cl ++ Open _ _ :: _), _, _;
      (split; [by rewrite <- app_assoc|]); (split; [done|]);
      (split; [intros ??? Hw|intros ?? Hf]); elems;
      try (split; [done|]); rewrite elem_of_app, !elem_of_cons; auto.
Qed.

Lemma failure_exits_without_partial_output_witness :
  (exit_status
     (main Runtime_forward
        (example_world example_desc (Err "undefined: MY_DEFINE") None)
        (example_cmdline "amd64" "sys/test.txt")) = 1
   ∧ last (trace
             (main Runtime_forward
                (example_world example_desc (Err "undefined: MY_DEFINE") None)
                (example_cmdline "amd64" "sys/test.txt")))
     = Some (Stderr ("undefined: MY_DEFINE" +:+ GoString.newline))
   ∧ ∀ name data res,
       WriteFile name data res
       ∉ trace
           (main Runtime_forward
              (example_world example_desc (Err "undefined: MY_DEFINE") None)
              (example_cmdline "amd64" "sys/test.txt")))
  ∧ (exit_status
       (main Runtime_forward
          (example_world example_desc (Ok {["O_RDWR" := 2%N]})
             (Some "no space left on device"))
          (example_cmdline "amd64" "sys/test.txt")) = 1
     ∧ last (trace
               (main Runtime_forward
                  (example_world example_desc (Ok {["O_RDWR" := 2%N]})
                     (Some "no space left on device"))
                  (example_cmdline "amd64" "sys/test.txt")))
       = Some (Stderr (("failed to write output file: "
                        +:+ "no space left on device")
                       +:+ GoString.newline))).
Proof.
  split.
  - apply (proj1 (failure_exits_without_partial_output Runtime_forward
                    (example_world example_desc (Err "undefined: MY_DEFINE")
                       None)
                    (example_cmdline "amd64" "sys/test.txt"))
             (mkFetchCall
                (mkCmdLine "/linux" "/linux" "amd64" 1 ["sys/test.txt"])
                "x86"
                ["__NR_open"; "O_RDWR"; "MY_DEFINE"; "AT_FDCWD"; ""]
                ["linux/fcntl.h"; "asm/unistd.h"] [] {["MY_DEFINE" := "1"]}
                ["-m64"])).
    vm_compute. do 2 apply list_elem_of_further. apply list_elem_of_here.
  - apply (proj1 (proj2 (failure_exits_without_partial_output Runtime_forward
                           (example_world example_desc
                              (Ok {["O_RDWR" := 2%N]})
                              (Some "no space left on device"))
                           (example_cmdline "amd64" "sys/test.txt")))
             "sys/test_amd64.const"
             ("# AUTOGENERATED FILE" +:+ GoString.newline
              +:+ "O_RDWR = 2" +:+ GoString.newline)).
    vm_compute. do 3 apply list_elem_of_further. apply list_elem_of_here.
Defined.

(** ** The wire schema *)

(** C8. The schema has two unions.  A host message is an [ExecRequest], a
    [SignalUpdate], a [CorpusTriaged] or a [StateRequest], and nothing
    else; an executor message is an [ExecResult], an [Executing] or a
    [State], and nothing else.  No variant of one union has the name or the
    table type of a variant of the other. *)
Theorem message_unions_closed_and_disjoint :
  (∀ m : flatrpc.HostMessagesRaw,
     (∃ r, m = flatrpc.ExecRequest r
           ∧ flatrpc.HostMessagesRaw_variant m
             = ("ExecRequest", "ExecRequestRaw"))
     ∨ (∃ r, m = flatrpc.SignalUpdate r
             ∧ flatrpc.HostMessagesRaw_variant m
               = ("SignalUpdate", "SignalUpdateRaw"))
     ∨ (∃ r, m = flatrpc.CorpusTriaged r
             ∧ flatrpc.HostMessagesRaw_variant m
               = ("CorpusTriaged", "CorpusTriagedRaw"))
     ∨ (∃ r, m = flatrpc.StateRequest r
             ∧ flatrpc.HostMessagesRaw_variant m
               = ("StateRequest", "StateRequestRaw")))
  ∧ (∀ m : flatrpc.ExecutorMessagesRaw,
       (∃ r, m = flatrpc.ExecResult r
             ∧ flatrpc.ExecutorMessagesRaw_variant m
               = ("ExecResult", "ExecResultRaw"))
       ∨ (∃ r, m = flatrpc.Executing r
               ∧ flatrpc.ExecutorMessagesRaw_variant m
                 = ("Executing", "ExecutingMessageRaw"))
       ∨ (∃ r, m = flatrpc.State r
               ∧ flatrpc.ExecutorMessagesRaw_variant m
                 = ("State", "StateResultRaw")))
  ∧ (∀ (h : flatrpc.HostMessagesRaw) (e : flatrpc.ExecutorMessagesRaw),
       (flatrpc.HostMessagesRaw_variant h).1
         ≠ (flatrpc.ExecutorMessagesRaw_variant e).1
       ∧ (flatrpc.HostMessagesRaw_variant h).2
         ≠ (flatrpc.ExecutorMessagesRaw_variant e).2).
Proof.
  split; [|split].
  - intros [r|r|r|r]; eauto 10.
  - intros [r|r|r]; eauto 10.
  - intros [r|r|r|r] [r'|r'|r']; by split.
Qed.


(* ===================================================================== *)
(** * Further properties of the program *)
(* ===================================================================== *)

(** ** The command line *)

Lemma main_no_linux (rt : Runtime) (w : World) (cl : CmdLine) :
  flagLinux cl = "" →
  main rt w cl
  = ([Stderr ("provide path to linux kernel checkout via -linux flag (or make extract LINUX= flag)"
              +:+ GoString.newline)], Exited 1).
Proof.
  intros Hlinux. unfold main.
  by assert (GoString.eq (flagLinux cl) "" = true) as ->
    by (by apply GoString_eq_true).
Qed.

(** The checks of lines 41 to 56 on the parsed command line. *)
Lemma main_invalid_command_line (rt : Runtime) (w : World) (cl : CmdLine) :
  flagLinux cl = "" ∨ length (Args cl) ≠ 1%nat →
  exit_status (main rt w cl) = 1
  ∧ outside_calls (trace (main rt w cl)) = []
  ∧ (flagLinux cl = "" →
     trace (main rt w cl)
     = [Stderr ("provide path to linux kernel checkout via -linux flag (or make extract LINUX= flag)"
                +:+ GoString.newline)])
  ∧ (flagLinux cl ≠ "" → is_Some (archs !! flagArch cl) →
     trace (main rt w cl)
     = build_dir_log cl
         ++ [Stderr ("usage: syz-extract -linux=/linux/checkout -arch=arch sys/input_file.txt"
                     +:+ GoString.newline)]).
Proof.
  intros Hbad.
  assert (∀ l, outside_calls (build_dir_log cl ++ [Stderr l]) = []) as Hlog.
  { intros l. unfold build_dir_log. by destruct (_ && _). }
  main_cases rt w cl;
    try (destruct Hbad as [?|Hlen]; [congruence|];
         match goal with H : Args cl = [_] |- _ => by rewrite H in Hlen end).
  all: repeat split; try done; intros; try congruence.
  all: try match goal with
           | H : is_Some (archs !! flagArch ?c), H' : flagArch ?c = "" |- _ =>
               rewrite H' in H; by destruct H
           | H : is_Some (archs !! flagArch ?c),
             H' : archs !! flagArch ?c = None |- _ =>
               rewrite H' in H; by destruct H
           end.
Qed.

(** When [flag.Parse()] returns, the program goes on with line 41. *)
Lemma syz_extract_parsed (flag_Parse : list string → flag_result)
    (rt : Runtime) (w : World) (args : list string) (cl : CmdLine) :
  flag_Parse args = flag_parsed cl →
  syz_extract flag_Parse rt w args = main rt w cl.
Proof. unfold syz_extract. by intros ->. Qed.

(** X1. When [flag.Parse()] has returned and the [-linux] flag is empty,
    the run consists of the one diagnostic about it and exit status 1,
    whatever values the other flags and the arguments were given.  When it
    has returned with [-linux] and a registered [-arch], a number of
    arguments other than one gives the usage line and exit status 1.  In
    both cases nothing but standard error is touched. *)
Theorem invalid_command_line_exits (flag_Parse : list string → flag_result)
    (rt : Runtime) (w : World) (args : list string) (cl : CmdLine) :
  flag_Parse args = flag_parsed cl →
  flagLinux cl = "" ∨ length (Args cl) ≠ 1%nat →
  exit_status (syz_extract flag_Parse rt w args) = 1
  ∧ outside_calls (trace (syz_extract flag_Parse rt w args)) = []
  ∧ (flagLinux cl = "" →
     trace (syz_extract flag_Parse rt w args)
     = [Stderr ("provide path to linux kernel checkout via -linux flag (or make extract LINUX= flag)"
                +:+ GoString.newline)])
  ∧ (flagLinux cl ≠ "" → is_Some (archs !! flagArch cl) →
     trace (syz_extract flag_Parse rt w args)
     = build_dir_log cl
         ++ [Stderr ("usage: syz-extract -linux=/linux/checkout -arch=arch sys/input_file.txt"
                     +:+ GoString.newline)]).
Proof.
  intros Hparsed Hbad.
  rewrite (syz_extract_parsed _ _ _ _ _ Hparsed).
  by apply main_invalid_command_line.
Qed.

Lemma invalid_command_line_exits_witness :
  exit_status
    (syz_extract example_flag_Parse Runtime_forward
       (example_world example_desc (Ok ∅) None)
       ["-linux=/linux"; "-linuxbld=/linux/build"; "-arch=amd64";
        "sys/a.txt"; "sys/b.txt"]) = 1
  ∧ outside_calls
      (trace (syz_extract example_flag_Parse Runtime_forward
                (example_world example_desc (Ok ∅) None)
                ["-linux=/linux"; "-linuxbld=/linux/build"; "-arch=amd64";
                 "sys/a.txt"; "sys/b.txt"])) = []
  ∧ (flagLinux (mkCmdLine "/linux" "/linux/build" "amd64" 0
                          ["sys/a.txt"; "sys/b.txt"]) = "" →
     trace (syz_extract example_flag_Parse Runtime_forward
              (example_world example_desc (Ok ∅) None)
              ["-linux=/linux"; "-linuxbld=/linux/build"; "-arch=amd64";
               "sys/a.txt"; "sys/b.txt"])
     = [Stderr ("provide path to linux kernel checkout via -linux flag (or make extract LINUX= flag)"
                +:+ GoString.newline)])
  ∧ (flagLinux (mkCmdLine "/linux" "/linux/build" "amd64" 0
                          ["sys/a.txt"; "sys/b.txt"]) ≠ "" →
     is_Some (archs !! flagArch (mkCmdLine "/linux" "/linux/build" "amd64" 0
                                           ["sys/a.txt"; "sys/b.txt"])) →
     trace (syz_extract example_flag_Parse Runtime_forward
              (example_world example_desc (Ok ∅) None)
              ["-linux=/linux"; "-linuxbld=/linux/build"; "-arch=amd64";
               "sys/a.txt"; "sys/b.txt"])
     = build_dir_log (mkCmdLine "/linux" "/linux/build" "amd64" 0
                                ["sys/a.txt"; "sys/b.txt"])
         ++ [Stderr ("usage: syz-extract -linux=/linux/checkout -arch=arch sys/input_file.txt"
                     +:+ GoString.newline)]).
Proof.
  apply (invalid_command_line_exits example_flag_Parse Runtime_forward
           (example_world example_desc (Ok ∅) None)
           ["-linux=/linux"; "-linuxbld=/linux/build"; "-arch=amd64";
            "sys/a.txt"; "sys/b.txt"]
           (mkCmdLine "/linux" "/linux/build" "amd64" 0
                      ["sys/a.txt"; "sys/b.txt"])).
  - reflexivity.
  - right. simpl. lia.
Defined.

Example help_run :
  syz_extract example_flag_Parse Runtime_forward
    (example_world example_desc (Ok ∅) None) ["-h"]
  = ([Stderr ("Usage of syz-extract:" +:+ GoString.newline)], Exited 0).
Proof. reflexivity. Qed.

Example undefined_flag_run :
  exit_status (syz_extract example_flag_Parse Runtime_forward
                 (example_world example_desc (Ok ∅) None) ["-nosuchflag"])
  = 2.
Proof. reflexivity. Qed.

(** ** The input file *)

(** X2. When the input file cannot be opened, [main] prints
    [failed to open input file:] with the error and exits with status 1;
    the file named is the one argument, and neither the resolver nor
    [osutil.WriteFile] is called. *)
Theorem open_failure_exits (rt : Runtime) (w : World) (cl : CmdLine)
    (name err : string) :
  Open name (Err err) ∈ trace (main rt w cl) →
  Args cl = [name]
  ∧ os_Open w name = Err err
  ∧ exit_status (main rt w cl) = 1
  ∧ last (trace (main rt w cl))
    = Some (Stderr (("failed to open input file: " +:+ err)
                    +:+ GoString.newline))
  ∧ outside_calls (trace (main rt w cl)) = [Open name (Err err)].
Proof.
  intros Hin.
  assert (∀ t, outside_calls (build_dir_log cl ++ t) = outside_calls t)
    as Hlog.
  { intros t. unfold build_dir_log. by destruct (_ && _). }
  main_cases rt w cl; elems.
  repeat split; try done. by last_event.
Qed.

Lemma open_failure_exits_witness :
  Args (example_cmdline "amd64" "sys/missing.txt") = ["sys/missing.txt"]
  ∧ os_Open (example_world example_desc (Ok ∅) None) "sys/missing.txt"
    = Err "open sys/missing.txt: no such file or directory"
  ∧ exit_status (main Runtime_forward (example_world example_desc (Ok ∅) None)
                   (example_cmdline "amd64" "sys/missing.txt")) = 1
  ∧ last (trace (main Runtime_forward
                   (example_world example_desc (Ok ∅) None)
                   (example_cmdline "amd64" "sys/missing.txt")))
    = Some (Stderr (("failed to open input file: "
                     +:+ "open sys/missing.txt: no such file or directory")
                    +:+ GoString.newline))
  ∧ outside_calls
      (trace (main Runtime_forward (example_world example_desc (Ok ∅) None)
                (example_cmdline "amd64" "sys/missing.txt")))
    = [Open "sys/missing.txt"
            (Err "open sys/missing.txt: no such file or directory")].
Proof.
  apply (open_failure_exits Runtime_forward
           (example_world example_desc (Ok ∅) None)
           (example_cmdline "amd64" "sys/missing.txt")).
  vm_compute. apply list_elem_of_further, list_elem_of_here.
Defined.

(** ** Exit status and standard error *)

Lemma outside_calls_build_dir_log (cl : CmdLine) (t : list event) :
  outside_calls (build_dir_log cl ++ t) = outside_calls t.
Proof. unfold build_dir_log. by destruct (_ && _). Qed.

(** The exit status of lines 41 to 75. *)
Lemma main_exit_status (rt : Runtime) (w : World) (cl : CmdLine) :
  (exit_status (main rt w cl) = 0 ∨ exit_status (main rt w cl) = 1)
  ∧ (exit_status (main rt w cl) = 0
     ↔ ∃ name data,
         last (trace (main rt w cl)) = Some (WriteFile name data None))
  ∧ (exit_status (main rt w cl) = 1
     ↔ ∃ text, last (trace (main rt w cl)) = Some (Stderr text)).
Proof.
  main_cases rt w cl; last_event.
  all: split; [auto|]; split; split; try done; eauto.
  all: try by intros (? & ? & ?).
  all: try by intros (? & ?).
Qed.

Lemma last_Stderr (printed : list string) (name data : string) :
  last (Stderr <$> printed) ≠ Some (WriteFile name data None).
Proof.
  rewrite fmap_last. by destruct (last printed).
Qed.

(** X3. When the functions called outside [extract.go] return, the exit
    status of the program is 0, 1 or 2.  It is 2 exactly when
    [flag.Parse()] rejected the command line.  It is 1 exactly when
    [flag.Parse()] returned and the last thing the run did was to print a
    diagnostic.  It is 0 exactly when the help flag was given or the last
    thing the run did was a successful [osutil.WriteFile]. *)
Theorem exit_status_reports_write (flag_Parse : list string → flag_result)
    (rt : Runtime) (w : World) (args : list string) :
  (exit_status (syz_extract flag_Parse rt w args) = 0
   ∨ exit_status (syz_extract flag_Parse rt w args) = 1
   ∨ exit_status (syz_extract flag_Parse rt w args) = 2)
  ∧ (exit_status (syz_extract flag_Parse rt w args) = 2
     ↔ ∃ printed, flag_Parse args = flag_failed printed)
  ∧ (exit_status (syz_extract flag_Parse rt w args) = 1
     ↔ ∃ cl text,
         flag_Parse args = flag_parsed cl
         ∧ last (trace (syz_extract flag_Parse rt w args))
           = Some (Stderr text))
  ∧ (exit_status (syz_extract flag_Parse rt w args) = 0
     ↔ (∃ printed, flag_Parse args = flag_help printed)
       ∨ ∃ name data,
           last (trace (syz_extract flag_Parse rt w args))
           = Some (WriteFile name data None)).
Proof.
  unfold syz_extract.
  destruct (flag_Parse args) as [cl|printed|printed] eqn:Hparse.
  - destruct (main_exit_status rt w cl) as (Hcode & Hzero & Hone).
    split; [tauto|]. split; [|split].
    + split; [lia|]. by intros (printed & ?).
    + rewrite Hone. split.
      * intros (text & Hlast). by exists cl, text.
      * intros (cl' & text & _ & Hlast). by exists text.
    + rewrite Hzero. split; [by right|].
      intros [(printed & ?)|?]; done.
  - unfold exit_status, trace. cbn [fst snd].
    split; [by left|]. split; [|split].
    + split; [done|]. by intros (? & ?).
    + split; [done|]. by intros (? & ? & ? & ?).
    + split; [by left; exists printed|done].
  - unfold exit_status, trace. cbn [fst snd].
    split; [by right; right|]. split; [|split].
    + split; [by exists printed|done].
    + split; [done|]. by intros (? & ? & ? & ?).
    + split; [done|]. intros [(? & ?)|(name & data & Hlast)]; [done|].
      by apply last_Stderr in Hlast.
Qed.

(** What lines 41 to 75 print in a run that ends with status 0. *)
Lemma main_quiet (rt : Runtime) (w : World) (cl : CmdLine) (text : string) :
  exit_status (main rt w cl) = 0 →
  Stderr text ∈ trace (main rt w cl) →
  text = build_dir_notice ∧ flagLinuxBld cl = "" ∧ 1 ≤ flagV cl.
Proof.
  intros Hexit Hin.
  assert (∀ e, e ∈ build_dir_log cl →
               e = Stderr build_dir_notice
               ∧ flagLinuxBld cl = "" ∧ 1 ≤ flagV cl) as Hlog.
  { intros e. unfold build_dir_log.
    destruct (GoString.eq (flagLinuxBld cl) "") eqn:Hbld;
      [|by intros ?%elem_of_nil].
    destruct (1 <=? flagV cl) eqn:Hv; [|by intros ?%elem_of_nil].
    intros ->%list_elem_of_singleton.
    apply GoString_eq_true in Hbld. apply Z.leb_le in Hv. done. }
  main_cases rt w cl; try done.
  all: repeat match goal with
         | H : _ ∈ _ ++ _ |- _ => apply elem_of_app in H; destruct H
         | H : _ ∈ _ :: _ |- _ => apply elem_of_cons in H; destruct H
         | H : _ ∈ [] |- _ => by apply elem_of_nil in H
         | H : Stderr ?x ∈ build_dir_log _ |- _ =>
             apply Hlog in H; destruct H as (? & ? & ?)
         end; simplify_eq; done.
Qed.

(** X4. In a run that ends with status 0, what [flag.Parse()] and
    [extract.go] print on standard error is either the text [flag.Parse()]
    printed for the help flag, or, [flag.Parse()] having returned, the
    notice that the build directory defaults to the source directory, and
    that only when [-linuxbld] is empty and the verbosity is at least 1. *)
Theorem successful_run_is_quiet (flag_Parse : list string → flag_result)
    (rt : Runtime) (w : World) (args : list string) (text : string) :
  exit_status (syz_extract flag_Parse rt w args) = 0 →
  Stderr text ∈ trace (syz_extract flag_Parse rt w args) →
  (∃ printed, flag_Parse args = flag_help printed ∧ text ∈ printed)
  ∨ (∃ cl, flag_Parse args = flag_parsed cl
           ∧ text = build_dir_notice
           ∧ flagLinuxBld cl = "" ∧ 1 ≤ flagV cl).
Proof.
  unfold syz_extract.
  destruct (flag_Parse args) as [cl|printed|printed] eqn:Hparse.
  - intros Hexit Hin. right. exists cl. split; [done|].
    by apply (main_quiet rt w cl).
  - intros _ Hin. left. exists printed. split; [done|].
    unfold trace in Hin. cbn [fst] in Hin.
    apply list_elem_of_fmap in Hin as (t & [= ->] & Ht). done.
  - intros Hexit. done.
Qed.

Lemma successful_run_is_quiet_witness :
  (∃ printed,
     example_flag_Parse ["-linux=/linux"; "-v=1"; "-arch=amd64";
                         "sys/test.txt"] = flag_help printed
     ∧ build_dir_notice ∈ printed)
  ∨ (∃ cl,
       example_flag_Parse ["-linux=/linux"; "-v=1"; "-arch=amd64";
                           "sys/test.txt"] = flag_parsed cl
       ∧ build_dir_notice = build_dir_notice
       ∧ flagLinuxBld cl = "" ∧ 1 ≤ flagV cl).
Proof.
  apply (successful_run_is_quiet example_flag_Parse Runtime_forward
           (example_world literal_desc (Ok ∅) None)
           ["-linux=/linux"; "-v=1"; "-arch=amd64"; "sys/test.txt"]
           build_dir_notice).
  - reflexivity.
  - vm_compute. apply list_elem_of_here.
Defined.

(** ** What the resolver is given *)

Lemma archs_KernelInclude (a : string) (arch : Arch) :
  archs !! a = Some arch → KernelInclude arch = "asm/unistd.h".
Proof.
  unfold archs. rewrite !lookup_insert_Some, lookup_empty.
  intros [[_ <-]|[_ [[_ <-]|[_ [[_ <-]|[_ ?]]]]]]; done.
Qed.

(** X5. The resolver always runs with a build directory: when [-linuxbld]
    is empty [main] has set it to the value of [-linux], which is not empty,
    before [fetchValues] is called; a build directory given on the command
    line is kept.  The other flags reach the resolver unchanged. *)
Theorem resolver_sees_build_dir (rt : Runtime) (w : World) (cl : CmdLine)
    (call : FetchCall) (res : result (gmap string N)) :
  FetchValues call res ∈ trace (main rt w cl) →
  flagLinuxBld (fc_flags call) ≠ ""
  ∧ flagLinuxBld (fc_flags call)
    = (if GoString.eq (flagLinuxBld cl) "" then flagLinux cl
       else flagLinuxBld cl)
  ∧ flagLinux (fc_flags call) = flagLinux cl
  ∧ flagArch (fc_flags call) = flagArch cl
  ∧ flagV (fc_flags call) = flagV cl
  ∧ Args (fc_flags call) = Args cl.
Proof.
  intros Hin.
  assert (flagLinux cl ≠ "" → fc_flags call = with_build_dir cl →
          flagLinuxBld (fc_flags call) ≠ ""
          ∧ flagLinuxBld (fc_flags call)
            = (if GoString.eq (flagLinuxBld cl) "" then flagLinux cl
               else flagLinuxBld cl)
          ∧ flagLinux (fc_flags call) = flagLinux cl
          ∧ flagArch (fc_flags call) = flagArch cl
          ∧ flagV (fc_flags call) = flagV cl
          ∧ Args (fc_flags call) = Args cl) as Hflags.
  { intros Hlinux ->. unfold with_build_dir.
    destruct (GoString.eq (flagLinuxBld cl) "") eqn:Hbld; simpl;
      [done|]. by apply GoString_eq_false in Hbld. }
  main_cases rt w cl; elems; by apply Hflags.
Qed.

Lemma resolver_sees_build_dir_witness :
  flagLinuxBld (mkCmdLine "/linux" "/linux" "amd64" 1 ["sys/test.txt"]) ≠ ""
  ∧ flagLinuxBld (mkCmdLine "/linux" "/linux" "amd64" 1 ["sys/test.txt"])
    = (if GoString.eq (flagLinuxBld (example_cmdline "amd64" "sys/test.txt"))
                      ""
       then flagLinux (example_cmdline "amd64" "sys/test.txt")
       else flagLinuxBld (example_cmdline "amd64" "sys/test.txt"))
  ∧ flagLinux (mkCmdLine "/linux" "/linux" "amd64" 1 ["sys/test.txt"])
    = flagLinux (example_cmdline "amd64" "sys/test.txt")
  ∧ flagArch (mkCmdLine "/linux" "/linux" "amd64" 1 ["sys/test.txt"])
    = flagArch (example_cmdline "amd64" "sys/test.txt")
  ∧ flagV (mkCmdLine "/linux" "/linux" "amd64" 1 ["sys/test.txt"])
    = flagV (example_cmdline "amd64" "sys/test.txt")
  ∧ Args (mkCmdLine "/linux" "/linux" "amd64" 1 ["sys/test.txt"])
    = Args (example_cmdline "amd64" "sys/test.txt").
Proof.
  apply (resolver_sees_build_dir Runtime_forward
           (example_world example_desc (Ok ∅) None)
           (example_cmdline "amd64" "sys/test.txt")
           (mkFetchCall
              (mkCmdLine "/linux" "/linux" "amd64" 1 ["sys/test.txt"])
              "x86"
              ["__NR_open"; "O_RDWR"; "MY_DEFINE"; "AT_FDCWD"; ""]
              ["linux/fcntl.h"; "asm/unistd.h"] [] {["MY_DEFINE" := "1"]}
              ["-m64"])
           (Ok ∅)).
  vm_compute. do 2 apply list_elem_of_further. apply list_elem_of_here.
Defined.

(** X6. A call of the resolver in a run of [main] carries the parameters
    of the architecture named by [-arch] (its directory of kernel headers
    and its compiler flags), the include directories and defines of the
    parsed description, and the includes of the description followed by
    [asm/unistd.h]; the symbols are those collected from that description
    that pass [isIdentifier]. *)
Theorem resolver_gets_arch_parameters (rt : Runtime) (w : World)
    (cl : CmdLine) (call : FetchCall) (res : result (gmap string N)) :
  FetchValues call res ∈ trace (main rt w cl) →
  ∃ arch inname inf,
    archs !! flagArch cl = Some arch
    ∧ Args cl = [inname]
    ∧ os_Open w inname = Ok inf
    ∧ fc_arch call = KernelHeaderArch arch
    ∧ fc_cflags call = CFlags arch
    ∧ fc_includes call = Includes (Parse w inf) ++ ["asm/unistd.h"]
    ∧ fc_incdirs call = Incdirs (Parse w inf)
    ∧ fc_defines call = Defines (Parse w inf)
    ∧ fc_vals call = identifiers_of rt (collect_vals rt (Parse w inf))
    ∧ res = fetchValues w call.
Proof.
  intros Hin.
  main_cases rt w cl; elems.
  all: match goal with
       | H : archs !! _ = Some ?a |- _ =>
           pose proof (archs_KernelInclude _ _ H) as Hinc
       end.
  all: eexists _, _, _; repeat split; try done; simpl;
    by rewrite ?Hinc.
Qed.

Lemma resolver_gets_arch_parameters_witness :
  ∃ arch inname inf,
    archs !! flagArch (example_cmdline "ppc64le" "sys/test.txt") = Some arch
    ∧ Args (example_cmdline "ppc64le" "sys/test.txt") = [inname]
    ∧ os_Open (example_world example_desc (Ok ∅) None) inname = Ok inf
    ∧ fc_arch (example_call "ppc64le" "powerpc" ["-D__powerpc64__"])
      = KernelHeaderArch arch
    ∧ fc_cflags (example_call "ppc64le" "powerpc" ["-D__powerpc64__"])
      = CFlags arch
    ∧ fc_includes (example_call "ppc64le" "powerpc" ["-D__powerpc64__"])
      = Includes (Parse (example_world example_desc (Ok ∅) None) inf)
          ++ ["asm/unistd.h"]
    ∧ fc_incdirs (example_call "ppc64le" "powerpc" ["-D__powerpc64__"])
      = Incdirs (Parse (example_world example_desc (Ok ∅) None) inf)
    ∧ fc_defines (example_call "ppc64le" "powerpc" ["-D__powerpc64__"])
      = Defines (Parse (example_world example_desc (Ok ∅) None) inf)
    ∧ fc_vals (example_call "ppc64le" "powerpc" ["-D__powerpc64__"])
      = identifiers_of Runtime_forward
          (collect_vals Runtime_forward
             (Parse (example_world example_desc (Ok ∅) None) inf))
    ∧ Ok ∅
      = fetchValues (example_world example_desc (Ok ∅) None)
          (example_call "ppc64le" "powerpc" ["-D__powerpc64__"]).
Proof.
  apply (resolver_gets_arch_parameters Runtime_forward
           (example_world example_desc (Ok ∅) None)
           (example_cmdline "ppc64le" "sys/test.txt")
           (example_call "ppc64le" "powerpc" ["-D__powerpc64__"])
           (Ok ∅)).
  vm_compute. do 2 apply list_elem_of_further. apply list_elem_of_here.
Defined.

(** X7. Apart from lines on standard error, a run of [main] is a prefix of
    the sequence: open the input file, call the resolver, write the output
    file.  Each happens at most once and in this order; the resolver is
    skipped when there is nothing to resolve, and nothing follows a step
    that failed. *)
Theorem main_steps_in_order (rt : Runtime) (w : World) (cl : CmdLine) :
  outside_calls (trace (main rt w cl)) = []
  ∨ (∃ name err, outside_calls (trace (main rt w cl)) = [Open name (Err err)])
  ∨ (∃ name inf call err,
       outside_calls (trace (main rt w cl))
       = [Open name (Ok inf); FetchValues call (Err err)])
  ∨ (∃ name inf out data res,
       outside_calls (trace (main rt w cl))
       = [Open name (Ok inf); WriteFile out data res])
  ∨ (∃ name inf call consts out data res,
       outside_calls (trace (main rt w cl))
       = [Open name (Ok inf); FetchValues call (Ok consts);
          WriteFile out data res]).
Proof.
  main_cases rt w cl; rewrite ?outside_calls_build_dir_log; simpl; eauto 12.
Qed.

(** ** The set of symbols, whatever the order of iteration *)

Lemma insert_all_true (vals : gmap string bool) (l : list string) :
  map_Forall (λ _ b, b = true) vals →
  map_Forall (λ _ b, b = true) (foldl (λ vals v, <[v:=true]> vals) vals l).
Proof.
  revert vals. induction l as [|v l IH]; intros vals Hvals; simpl; [done|].
  apply IH. by apply map_Forall_insert_2.
Qed.

Lemma insert_lists_true {A} (f : A → list string) (vals : gmap string bool)
    (l : list (string * A)) :
  map_Forall (λ _ b, b = true) vals →
  map_Forall (λ _ b, b = true)
    (foldl (λ vals '(_, a), foldl (λ vals v, <[v:=true]> vals) vals (f a))
           vals l).
Proof.
  revert vals. induction l as [|[k a] l IH]; intros vals Hvals; simpl;
    [done|].
  by apply IH, insert_all_true.
Qed.

Lemma collect_vals_true (rt : Runtime) (desc : Description) :
  map_Forall (λ _ b, b = true) (collect_vals rt desc).
Proof.
  unfold collect_vals. apply (insert_lists_true Values).
  assert (∀ l (vals : gmap string bool),
    map_Forall (λ _ b, b = true) vals →
    map_Forall (λ _ b, b = true)
      (foldl (λ vals sc,
                if GoString.HasPrefix (CallName sc) "syz_" then vals
                else <["__NR_" +:+ CallName sc := true]> vals) vals l))
    as Hsys.
  { induction l as [|sc l IH]; intros vals Hvals; simpl; [done|].
    apply IH. destruct (GoString.HasPrefix _ _); [done|].
    by apply map_Forall_insert_2. }
  apply Hsys.
  assert (∀ (l : list (string * string)) (vals : gmap string bool),
    map_Forall (λ _ b, b = true) vals →
    map_Forall (λ _ b, b = true)
      (foldl (λ vals '(v, _), <[v:=true]> vals) vals l)) as Hdef.
  { induction l as [|[k a] l IH]; intros vals Hvals; simpl; [done|].
    apply IH. by apply map_Forall_insert_2. }
  apply Hdef, (insert_lists_true id), map_Forall_empty.
Qed.

Lemma collect_vals_any_order (rt1 rt2 : Runtime) (desc : Description) :
  collect_vals rt1 desc = collect_vals rt2 desc.
Proof.
  apply map_eq. intros v.
  pose proof (collect_vals_lookup rt1 desc v) as H1.
  pose proof (collect_vals_lookup rt2 desc v) as H2.
  pose proof (collect_vals_true rt1 desc v) as T1.
  pose proof (collect_vals_true rt2 desc v) as T2.
  destruct (collect_vals rt1 desc !! v) as [b1|] eqn:E1;
    destruct (collect_vals rt2 desc !! v) as [b2|] eqn:E2.
  - by rewrite (T1 b1), (T2 b2).
  - assert (is_Some (@None bool)) as [? ?]; [|done].
    apply H2, H1. eauto.
  - assert (is_Some (@None bool)) as [? ?]; [|done].
    apply H1, H2. eauto.
  - done.
Qed.

(** X8. The set of symbols [compileConsts] collects does not depend on the
    order in which the maps of the description are ranged over, and every
    entry of the set is [true]. *)
Theorem collect_vals_order_independent (rt1 rt2 : Runtime)
    (desc : Description) :
  collect_vals rt1 desc = collect_vals rt2 desc
  ∧ map_Forall (λ _ b, b = true) (collect_vals rt1 desc).
Proof.
  split; [apply collect_vals_any_order|apply collect_vals_true].
Qed.

Lemma identifiers_of_NoDup (rt : Runtime) (vals : gmap string bool) :
  NoDup (identifiers_of rt vals).
Proof.
  rewrite identifiers_of_filter. apply NoDup_filter.
  rewrite range_map_perm. apply NoDup_fst_map_to_list.
Qed.

(** X9. The slice of symbols handed to the resolver names no symbol twice,
    however often the description refers to it, and two orders of
    iteration give the same symbols, in possibly different order. *)
Theorem identifiers_once_each (rt1 rt2 : Runtime) (desc : Description) :
  NoDup (identifiers_of rt1 (collect_vals rt1 desc))
  ∧ identifiers_of rt1 (collect_vals rt1 desc)
    ≡ₚ identifiers_of rt2 (collect_vals rt2 desc).
Proof.
  split; [apply identifiers_of_NoDup|].
  apply NoDup_Permutation; try apply identifiers_of_NoDup.
  intros v. rewrite !elem_of_identifiers_of.
  by rewrite (collect_vals_any_order rt1 rt2 desc).
Qed.

(** ** More on [isIdentifier] *)

Lemma get_app_l (s t : string) (i : nat) :
  (i < String.length s)%nat → String.get i (s +:+ t) = String.get i s.
Proof. intros Hi. symmetry. by apply String.append_correct1. Qed.

Lemma get_app_r (s t : string) (i : nat) :
  String.get (i + String.length s) (s +:+ t) = String.get i t.
Proof. symmetry. apply String.append_correct2. Qed.

(** After a non-empty identifier, any bytes of identifiers may follow, a
    digit included, and nothing else. *)
Lemma isIdentifier_app (s t : string) :
  s ≠ "" →
  isIdentifier (s +:+ t) = true
  ↔ isIdentifier s = true
    ∧ ∀ i c, String.get i t = Some c → identifier_byte c.
Proof.
  intros Hs. rewrite !isIdentifier_valid. unfold valid_identifier.
  assert (0 < String.length s)%nat as Hlen by (destruct s; [done|simpl; lia]).
  split.
  - intros Hst. split.
    + intros i c Hi. apply Hst. rewrite get_app_l; [done|].
      apply get_Some_lt. eauto.
    + intros i c Hi. unfold identifier_byte.
      destruct (Hst (i + String.length s)%nat c) as [?|[?|[? _]]]; auto.
      by rewrite get_app_r.
  - intros [Hvalid Ht] i c Hi.
    destruct (decide (i < String.length s)%nat) as [Hlt|Hge].
    + apply Hvalid. by rewrite <- (get_app_l s t).
    + replace i with (i - String.length s + String.length s)%nat in Hi
        by lia.
      rewrite get_app_r in Hi.
      destruct (Ht _ _ Hi) as [?|[?|?]]; auto.
      right. right. split; [done|lia].
Qed.

(** X10. The symbol [__NR_] followed by a call name is an identifier
    exactly when every byte of the call name is an ASCII letter, an ASCII
    digit or an underscore; a digit may come first in the call name, and
    the empty call name is accepted. *)
Theorem syscall_symbol_identifier (callname : string) :
  isIdentifier ("__NR_" +:+ callname) = true
  ↔ ∀ i c, String.get i callname = Some c → identifier_byte c.
Proof.
  rewrite isIdentifier_app by done. split; [by intros [_ ?]|].
  intros Hall. split; [reflexivity|done].
Qed.

Lemma decimal_first_digit (s : string) (n : N) :
  decimal s n → ∃ c, String.get 0 s = Some c ∧ ascii_digit c.
Proof.
  assert (∀ d, (d < 10)%N → ascii_digit (fmt.digit d)) as Hdigit.
  { intros d Hd. unfold ascii_digit, utf8.byte.
    rewrite N_of_digit by done. lia. }
  induction 1 as [d Hd|s n d Hs (c & Hc & Hdig) Hn Hd].
  - exists (fmt.digit d). split; [done|by apply Hdigit].
  - exists c. split; [|done].
    rewrite get_app_l; [done|]. apply get_Some_lt. eauto.
Qed.

Lemma isIdentifier_first_digit (s : string) (c : ascii) :
  String.get 0 s = Some c → ascii_digit c → isIdentifier s = false.
Proof.
  intros Hget Hdigit. apply not_true_is_false.
  intros Hvalid%isIdentifier_valid.
  unfold valid_identifier, ascii_digit, ascii_letter in *.
  destruct (Hvalid 0%nat c Hget) as [?|[->|[_ ?]]]; [lia| |lia].
  vm_compute in Hdigit. by destruct Hdigit as [_ []].
Qed.

(** X11. A string that begins with an ASCII digit is not an identifier; in
    particular no decimal numeral is one, so a number among the values of a
    flag or of a resource is never handed to the resolver. *)
Theorem numerals_are_not_identifiers (s : string) :
  (∃ c, String.get 0 s = Some c ∧ ascii_digit c) ∨ (∃ n, decimal s n) →
  isIdentifier s = false.
Proof.
  intros [(c & Hget & Hdigit)|(n & (c & Hget & Hdigit)%decimal_first_digit)];
    by apply (isIdentifier_first_digit s c).
Qed.

Lemma numerals_are_not_identifiers_witness :
  isIdentifier (fmt.fmtUint64 18446744073709551615) = false.
Proof.
  apply (numerals_are_not_identifiers (fmt.fmtUint64 18446744073709551615)).
  right. exists 18446744073709551615%N. apply fmtUint64_decimal. lia.
Defined.

(** X12. [isIdentifier] rejects every string that holds a byte outside
    ASCII, wherever it stands: the loop compares code points, and a byte
    from [0x80] on never decodes to a letter, a digit or an underscore. *)
Theorem non_ascii_rejected (s : string) (i : nat) (c : ascii) :
  String.get i s = Some c → 0x80 ≤ utf8.byte c → isIdentifier s = false.
Proof.
  intros Hget Hc. apply not_true_is_false.
  intros Hvalid%isIdentifier_valid.
  unfold valid_identifier, ascii_letter, ascii_digit in Hvalid.
  destruct (Hvalid i c Hget) as [?|[->|[? _]]]; [lia| |lia].
  vm_compute in Hc. by apply Hc.
Qed.

Lemma non_ascii_rejected_witness :
  isIdentifier ("caf" +:+ String "195" (String "169" "")) = false.
Proof.
  apply (non_ascii_rejected ("caf" +:+ String "195" (String "169" ""))
           3 "195"%char).
  - reflexivity.
  - vm_compute. discriminate.
Defined.

(** ** The output determines the constants *)

(** Two strings that continue after the same separator, which occurs in
    neither, are equal, and so are the continuations. *)
Lemma separator_inj (c : ascii) (a b x y : string) :
  no_byte c a → no_byte c b →
  a +:+ String c x = b +:+ String c y → a = b ∧ x = y.
Proof.
  assert (∀ s, "" +:+ s = s) as Hnil by done.
  revert b. induction a as [|d a IH]; intros [|e b] Ha Hb Heq;
    rewrite ?Hnil, ?string_app_cons in Heq; simplify_eq.
  - done.
  - exfalso. by apply (Hb 0%nat).
  - exfalso. by apply (Ha 0%nat).
  - destruct (IH b) as [-> ->]; [| |done..].
    + intros i. apply (Ha (S i)).
    + intros i. apply (Hb (S i)).
Qed.

Lemma decimal_value_from_digits (acc : N) (s : string) (v : N) :
  decimal_value_from acc s = Some v →
  ∀ i c, String.get i s = Some c → ascii_digit c.
Proof.
  revert acc. induction s as [|d s IH]; intros acc Hv i c Hi; [done|].
  simpl in Hv.
  destruct ((48 <=? N_of_ascii d)%N && (N_of_ascii d <=? 57)%N) eqn:Hd;
    [|done].
  destruct i as [|i]; simpl in Hi.
  - simplify_eq. apply andb_true_iff in Hd as [?%N.leb_le ?%N.leb_le].
    unfold ascii_digit, utf8.byte. lia.
  - by apply (IH _ Hv i).
Qed.

Lemma decimal_digits (s : string) (n : N) :
  decimal s n → ∀ i c, String.get i s = Some c → ascii_digit c.
Proof.
  intros Hs. pose proof (decimal_reads_back s n Hs) as Hv.
  destruct s as [|d s]; [done|]. exact (decimal_value_from_digits 0 _ n Hv).
Qed.

Lemma decimal_no_newline (s : string) (n : N) :
  decimal s n → no_byte "010" s.
Proof.
  intros Hs i Hi. apply (decimal_digits s n Hs) in Hi.
  vm_compute in Hi. by destruct Hi as [[] _].
Qed.

Lemma valid_identifier_no_space (s : string) :
  valid_identifier s → no_byte " " s.
Proof.
  intros Hs i Hi. unfold valid_identifier, ascii_letter, ascii_digit in Hs.
  destruct (Hs i _ Hi) as [[H|H]|[?|[H _]]]; [| |done|];
    vm_compute in H; by destruct H as [[] _].
Qed.

Lemma const_lines_cons (x : NameValue) (nv : list NameValue) :
  const_lines (x :: nv)
  = name x
    +:+ String " " (String "=" (String " "
          (fmt.fmtUint64 (val x) +:+ String "010" (const_lines nv)))).
Proof.
  unfold const_lines, const_line. simpl.
  by rewrite !string_app_assoc.
Qed.

Lemma const_lines_inj (nv1 nv2 : list NameValue) :
  Forall well_formed_const nv1 → Forall well_formed_const nv2 →
  const_lines nv1 = const_lines nv2 → nv1 = nv2.
Proof.
  intros Hnv1. revert nv2.
  induction Hnv1 as [|x nv1 [Hx Hvx] _ IH]; intros nv2 Hnv2 Heq;
    destruct Hnv2 as [|y nv2 [Hy Hvy] Hnv2];
    rewrite ?const_lines_cons in Heq.
  - done.
  - by destruct (name y).
  - by destruct (name x).
  - apply separator_inj in Heq as [Hname Heq];
      [|by apply valid_identifier_no_space..].
    simplify_eq.
    pose proof (fmtUint64_decimal (val x) Hvx) as Hdx.
    pose proof (fmtUint64_decimal (val y) Hvy) as Hdy.
    apply separator_inj in Heq as [Hval Heq];
      [|by eapply decimal_no_newline..].
    rewrite Hval in Hdx.
    apply decimal_reads_back in Hdx, Hdy.
    f_equal; [|by apply IH].
    destruct x, y; simpl in *. congruence.
Qed.

(** X13. The output of [generateConsts] determines the map of constants:
    two maps whose names are identifiers and whose values are of 64 bits
    and that give the same output are the same map, whatever the order of
    iteration, the sorting algorithm and the [arch] argument, which the
    output does not depend on. *)
Theorem generateConsts_injective (rt1 rt2 : Runtime) (arch1 arch2 : string)
    (consts1 consts2 : gmap string N) (out : string) :
  map_Forall (λ k v, valid_identifier k ∧ (v < 2 ^ 64)%N) consts1 →
  map_Forall (λ k v, valid_identifier k ∧ (v < 2 ^ 64)%N) consts2 →
  generateConsts rt1 arch1 consts1 out = generateConsts rt2 arch2 consts2 out ↔
  consts1 = consts2.
Proof.
  intros H1 H2. split.
  - rewrite !generateConsts_lines. intros Heq%(inj (String.app _)).
    assert (∀ rt consts,
      map_Forall (λ k v, valid_identifier k ∧ (v < 2 ^ 64)%N) consts →
      Forall well_formed_const (sorted_consts rt consts)) as Hwf.
    { intros rt consts Hc. rewrite sorted_consts_perm.
      apply Forall_fmap, Forall_forall.
      intros [k v] Hkv%elem_of_map_to_list. exact (Hc k v Hkv). }
    apply const_lines_inj in Heq; [|by apply Hwf..].
    apply map_to_list_inj.
    assert (∀ consts : gmap string N,
      map_to_list consts
      = (λ x, (name x, val x)) <$> (pair_of_entry <$> map_to_list consts))
      as Hback.
    { intros consts. rewrite <- list_fmap_compose.
      rewrite <- (list_fmap_id (map_to_list consts)) at 1.
      apply list_fmap_ext. by intros i [k v] _. }
    rewrite (Hback consts1), (Hback consts2).
    by rewrite <- !sorted_consts_perm, Heq.
  - intros ->. rewrite !generateConsts_lines.
    by rewrite (sorted_consts_unique rt1 rt2).
Qed.

Lemma generateConsts_injective_witness :
  generateConsts Runtime_forward "amd64" example_consts ""
  = generateConsts Runtime_backward "arm64" example_consts ""
  ↔ example_consts = example_consts.
Proof.
  assert (map_Forall (λ k v, valid_identifier k ∧ (v < 2 ^ 64)%N)
                     example_consts) as Hwf.
  { apply (map_Forall_impl
             (λ k v, isIdentifier k = true ∧ (v < 2 ^ 64)%N)).
    - refine (bool_decide_unpack _ _). vm_compute. exact I.
    - intros k v [Hk Hv]. split; [by apply isIdentifier_valid|done]. }
  exact (generateConsts_injective Runtime_forward Runtime_backward
           "amd64" "arm64" example_consts example_consts "" Hwf Hwf).
Defined.

(** ** The methods of [NameValueArray] *)

Lemma Swap_lookup (a : NameValueArray) (i j k : nat) :
  (i < NameValueArray.Len a)%nat → (j < NameValueArray.Len a)%nat →
  NameValueArray.Swap a i j !! k
  = a !! (if decide (k = i) then j else if decide (k = j) then i else k).
Proof.
  unfold NameValueArray.Len, NameValueArray.Swap. intros Hi Hj.
  destruct (lookup_lt_is_Some_2 a i Hi) as [x Hx].
  destruct (lookup_lt_is_Some_2 a j Hj) as [y Hy].
  rewrite Hx, Hy.
  destruct (decide (k = j)) as [->|Hkj].
  - rewrite list_lookup_insert_eq by (by rewrite length_insert).
    destruct (decide (j = i)) as [->|_]; congruence.
  - rewrite list_lookup_insert_ne by done.
    destruct (decide (k = i)) as [->|Hki].
    + by rewrite list_lookup_insert_eq.
    + by rewrite list_lookup_insert_ne.
Qed.

(** X14. [Swap] on two indices below [Len()] exchanges the two elements
    and leaves every other element and the length as they are: the result
    is a rearrangement of the array, and swapping again restores it. *)
Theorem Swap_exchanges (a : NameValueArray) (i j : nat) :
  (i < NameValueArray.Len a)%nat → (j < NameValueArray.Len a)%nat →
  NameValueArray.Len (NameValueArray.Swap a i j) = NameValueArray.Len a
  ∧ NameValueArray.Swap a i j !! i = a !! j
  ∧ NameValueArray.Swap a i j !! j = a !! i
  ∧ (∀ k, k ≠ i → k ≠ j → NameValueArray.Swap a i j !! k = a !! k)
  ∧ NameValueArray.Swap a i j ≡ₚ a
  ∧ NameValueArray.Swap (NameValueArray.Swap a i j) i j = a.
Proof.
  intros Hi Hj.
  assert (NameValueArray.Len (NameValueArray.Swap a i j)
          = NameValueArray.Len a) as Hlen.
  { unfold NameValueArray.Len, NameValueArray.Swap.
    destruct (a !! i), (a !! j); by rewrite ?length_insert. }
  split; [done|]. split.
  { rewrite Swap_lookup by done. by rewrite decide_True. }
  split.
  { rewrite Swap_lookup by done. destruct (decide (j = i)) as [->|]; [done|].
    by rewrite decide_True. }
  split.
  { intros k Hki Hkj. rewrite Swap_lookup by done.
    by rewrite !decide_False. }
  split.
  - apply Permutation_inj. split; [done|].
    exists (λ k, if decide (k = i) then j
                 else if decide (k = j) then i else k).
    split; [|intros k; by apply Swap_lookup].
    intros k1 k2. repeat case_decide; congruence.
  - apply list_eq. intros k.
    rewrite Swap_lookup by (by rewrite Hlen).
    rewrite Swap_lookup by done.
    f_equal. repeat case_decide; congruence.
Qed.

Lemma Swap_exchanges_witness :
  NameValueArray.Len
    (NameValueArray.Swap
       [mkNameValue "b" 2; mkNameValue "c" 3; mkNameValue "a" 1] 2 0)
  = NameValueArray.Len
      [mkNameValue "b" 2; mkNameValue "c" 3; mkNameValue "a" 1]
  ∧ NameValueArray.Swap
      [mkNameValue "b" 2; mkNameValue "c" 3; mkNameValue "a" 1] 2 0 !! 2%nat
    = [mkNameValue "b" 2; mkNameValue "c" 3; mkNameValue "a" 1] !! 0%nat
  ∧ NameValueArray.Swap
      [mkNameValue "b" 2; mkNameValue "c" 3; mkNameValue "a" 1] 2 0 !! 0%nat
    = [mkNameValue "b" 2; mkNameValue "c" 3; mkNameValue "a" 1] !! 2%nat
  ∧ (∀ k, k ≠ 2%nat → k ≠ 0%nat →
          NameValueArray.Swap
            [mkNameValue "b" 2; mkNameValue "c" 3; mkNameValue "a" 1] 2 0
            !! k
          = [mkNameValue "b" 2; mkNameValue "c" 3; mkNameValue "a" 1] !! k)
  ∧ NameValueArray.Swap
      [mkNameValue "b" 2; mkNameValue "c" 3; mkNameValue "a" 1] 2 0
    ≡ₚ [mkNameValue "b" 2; mkNameValue "c" 3; mkNameValue "a" 1]
  ∧ NameValueArray.Swap
      (NameValueArray.Swap
         [mkNameValue "b" 2; mkNameValue "c" 3; mkNameValue "a" 1] 2 0) 2 0
    = [mkNameValue "b" 2; mkNameValue "c" 3; mkNameValue "a" 1].
Proof.
  apply (Swap_exchanges
           [mkNameValue "b" 2; mkNameValue "c" 3; mkNameValue "a" 1] 2 0);
    simpl; lia.
Defined.

(** X15. On indices below [Len()], [Less] compares the names of the two
    elements as a strict order: no index is less than itself, two indices
    are never less than each other, and the comparison is transitive.  In an
    array whose names are distinct, as the keys of a map are, of two
    different indices one is less than the other. *)
Theorem Less_strict_order (a : NameValueArray) (i j k : nat) :
  (i < NameValueArray.Len a)%nat → (j < NameValueArray.Len a)%nat →
  (k < NameValueArray.Len a)%nat →
  NameValueArray.Less a i i = false
  ∧ (NameValueArray.Less a i j = true → NameValueArray.Less a j i = false)
  ∧ (NameValueArray.Less a i j = true → NameValueArray.Less a j k = true →
     NameValueArray.Less a i k = true)
  ∧ (NoDup (name <$> a) → i ≠ j →
     NameValueArray.Less a i j = true ∨ NameValueArray.Less a j i = true).
Proof.
  unfold NameValueArray.Less, NameValueArray.Len. intros Hi Hj Hk.
  destruct (lookup_lt_is_Some_2 a i Hi) as [x Hx].
  destruct (lookup_lt_is_Some_2 a j Hj) as [y Hy].
  destruct (lookup_lt_is_Some_2 a k Hk) as [z Hz].
  rewrite Hx, Hy, Hz.
  split; [apply GoString_lt_irrefl|].
  split; [apply GoString_lt_asym|].
  split; [apply GoString_lt_trans|].
  intros Hnd Hij.
  destruct (GoString.lt (name y) (name x)) eqn:Hyx; [by right|left].
  apply GoString_lt_total; [|done].
  intros Heq. apply Hij.
  apply (NoDup_lookup _ i j (name x) Hnd);
    rewrite list_lookup_fmap; [by rewrite Hx|by rewrite Hy, Heq].
Qed.

Lemma Less_strict_order_witness :
  NameValueArray.Less
    [mkNameValue "b" 2; mkNameValue "c" 3; mkNameValue "a" 1] 2 2 = false
  ∧ (NameValueArray.Less
       [mkNameValue "b" 2; mkNameValue "c" 3; mkNameValue "a" 1] 2 0 = true →
     NameValueArray.Less
       [mkNameValue "b" 2; mkNameValue "c" 3; mkNameValue "a" 1] 0 2 = false)
  ∧ (NameValueArray.Less
       [mkNameValue "b" 2; mkNameValue "c" 3; mkNameValue "a" 1] 2 0 = true →
     NameValueArray.Less
       [mkNameValue "b" 2; mkNameValue "c" 3; mkNameValue "a" 1] 0 1 = true →
     NameValueArray.Less
       [mkNameValue "b" 2; mkNameValue "c" 3; mkNameValue "a" 1] 2 1 = true)
  ∧ (NoDup (name <$>
              [mkNameValue "b" 2; mkNameValue "c" 3; mkNameValue "a" 1]) →
     2%nat ≠ 0%nat →
     NameValueArray.Less
       [mkNameValue "b" 2; mkNameValue "c" 3; mkNameValue "a" 1] 2 0 = true
     ∨ NameValueArray.Less
         [mkNameValue "b" 2; mkNameValue "c" 3; mkNameValue "a" 1] 0 2 = true).
Proof.
  apply (Less_strict_order
           [mkNameValue "b" 2; mkNameValue "c" 3; mkNameValue "a" 1] 2 0 1);
    simpl; lia.
Defined.

(** ** The output path *)

Lemma string_app_inj_l (s a b : string) : s +:+ a = s +:+ b → a = b.
Proof.
  induction s as [|c s IH]; [done|].
  rewrite !string_app_cons. intros [= H]. by apply IH.
Qed.

Lemma string_app_inj_r (a b t : string) : a +:+ t = b +:+ t → a = b.
Proof.
  revert b. induction a as [|c a IH]; intros [|d b] H.
  - done.
  - apply (f_equal GoString.len) in H. rewrite !len_app in H.
    unfold GoString.len in H. simpl in H. lia.
  - apply (f_equal GoString.len) in H. rewrite !len_app in H.
    unfold GoString.len in H. simpl in H. lia.
  - rewrite !string_app_cons in H. injection H as -> H.
    f_equal. by apply IH.
Qed.

Lemma TrimSuffix_len (s suffix : string) :
  (GoString.len s ≤ GoString.len (GoString.TrimSuffix s suffix)
                    + GoString.len suffix)%nat.
Proof.
  destruct (GoString.HasSuffix s suffix) eqn:Hs.
  - apply HasSuffix_true in Hs as [base ->].
    by rewrite TrimSuffix_app, len_app.
  - rewrite TrimSuffix_other by done. lia.
Qed.

Lemma outname_longer (inname arch : string) :
  (GoString.len inname + 3 ≤ GoString.len (outname inname arch))%nat.
Proof.
  unfold outname. rewrite !len_app.
  pose proof (TrimSuffix_len inname ".txt") as H.
  change (GoString.len ".txt") with 4%nat in H.
  change (GoString.len "_") with 1%nat.
  change (GoString.len ".const") with 6%nat. lia.
Qed.

Lemma outname_not_inname (inname arch : string) : outname inname arch ≠ inname.
Proof.
  intros H. pose proof (outname_longer inname arch) as Hlen.
  rewrite H in Hlen. lia.
Qed.

Lemma outname_suffix (inname arch : string) :
  GoString.HasSuffix (outname inname arch) ("_" +:+ arch +:+ ".const") = true.
Proof. apply HasSuffix_true. by eexists. Qed.

(** X16. The output path is at least three bytes longer than the input
    path, so the two differ; it ends in [_<arch>.const]; and for one input
    file two architectures give the same output path only when they are the
    same architecture. *)
Theorem outname_per_arch (inname arch1 arch2 : string) :
  (GoString.len inname + 3 ≤ GoString.len (outname inname arch1))%nat
  ∧ outname inname arch1 ≠ inname
  ∧ GoString.HasSuffix (outname inname arch1) ("_" +:+ arch1 +:+ ".const")
    = true
  ∧ (outname inname arch1 = outname inname arch2 ↔ arch1 = arch2).
Proof.
  split; [apply outname_longer|].
  split; [apply outname_not_inname|].
  split; [apply outname_suffix|].
  split; [|by intros ->].
  unfold outname. intros H.
  apply string_app_inj_l, string_app_inj_l in H.
  by apply string_app_inj_r in H.
Qed.

(** X17. Whenever [main] calls [osutil.WriteFile], the command line named
    one input file, that file was opened, the architecture is one of the
    registry, and the path written is the output path for that input and
    architecture: it ends in [_<arch>.const] and is not the path of the
    input. *)
Theorem written_path_is_outname (rt : Runtime) (w : World) (cl : CmdLine)
    (out data : string) (res : option string) :
  WriteFile out data res ∈ trace (main rt w cl) →
  ∃ inname inf,
    Args cl = [inname]
    ∧ Open inname (Ok inf) ∈ trace (main rt w cl)
    ∧ is_Some (archs !! flagArch cl)
    ∧ res = osutil_WriteFile w out data
    ∧ out = outname inname (flagArch cl)
    ∧ out ≠ inname
    ∧ GoString.HasSuffix out ("_" +:+ flagArch cl +:+ ".const") = true.
Proof.
  main_cases rt w cl; intros Hin; elems.
  all: eexists _, _; split; [eassumption|].
  all: split; [apply elem_of_app; right; apply elem_of_cons; by left|].
  all: split; [by eexists|].
  all: split; [done|].
  all: split; [done|].
  all: split; [apply outname_not_inname | apply outname_suffix].
Qed.

Lemma written_path_is_outname_witness :
  ∃ inname inf,
    Args (example_cmdline "amd64" "sys/test.txt") = [inname]
    ∧ Open inname (Ok inf)
      ∈ trace (main Runtime_forward
                    (example_world example_desc (Ok {["O_RDWR" := 2%N]}) None)
                    (example_cmdline "amd64" "sys/test.txt"))
    ∧ is_Some (archs !! flagArch (example_cmdline "amd64" "sys/test.txt"))
    ∧ None
      = osutil_WriteFile
          (example_world example_desc (Ok {["O_RDWR" := 2%N]}) None)
          "sys/test_amd64.const"
          ("# AUTOGENERATED FILE" +:+ GoString.newline
           +:+ "O_RDWR = 2" +:+ GoString.newline)
    ∧ "sys/test_amd64.const"
      = outname inname (flagArch (example_cmdline "amd64" "sys/test.txt"))
    ∧ "sys/test_amd64.const" ≠ inname
    ∧ GoString.HasSuffix "sys/test_amd64.const"
        ("_" +:+ flagArch (example_cmdline "amd64" "sys/test.txt")
             +:+ ".const") = true.
Proof.
  apply (written_path_is_outname Runtime_forward
           (example_world example_desc (Ok {["O_RDWR" := 2%N]}) None)
           (example_cmdline "amd64" "sys/test.txt")
           "sys/test_amd64.const"
           ("# AUTOGENERATED FILE" +:+ GoString.newline
            +:+ "O_RDWR = 2" +:+ GoString.newline)
           None).
  vm_compute. do 3 apply list_elem_of_further. apply list_elem_of_here.
Defined.

(** ** The flag enums of [flatrpc.fbs] *)

Lemma land_bit (m k : N) :
  N.land m (N.shiftl 1 k) = if N.testbit m k then (2 ^ k)%N else 0%N.
Proof.
  rewrite N.shiftl_1_l. apply N.bits_inj. intros i.
  rewrite N.land_spec, N.pow2_bits_eqb.
  destruct (N.eqb_spec k i) as [->|Hne].
  - rewrite andb_true_r. destruct (N.testbit m i) eqn:Hm.
    + by rewrite N.pow2_bits_true.
    + by rewrite N.bits_0.
  - rewrite andb_false_r. destruct (N.testbit m k).
    + by rewrite N.pow2_bits_false.
    + by rewrite N.bits_0.
Qed.

Section bit_flags_proofs.

Context {A : Type} `{BitFlags A}.
Hypothesis index_inj : ∀ f g : A, index f = index g → f = g.
Hypothesis index_bits : ∀ f : A, (index f < bits)%nat.

Lemma value_inj (f g : A) : bit_flags.value f = bit_flags.value g → f = g.
Proof.
  unfold bit_flags.value. rewrite !N.shiftl_1_l. intros Hv.
  apply index_inj, Nat2N.inj. by apply (N.pow_inj_r 2).
Qed.

Lemma has_testbit (m : N) (f : A) :
  bit_flags.has m f = N.testbit m (N.of_nat (index f)).
Proof.
  unfold bit_flags.has, bit_flags.value. rewrite land_bit.
  destruct (N.testbit m _); [|done].
  apply negb_true_iff, N.eqb_neq, N.pow_nonzero. lia.
Qed.

Lemma mask_testbit (l : list A) (k : N) :
  N.testbit (bit_flags.mask l) k = true ↔ ∃ f, f ∈ l ∧ N.of_nat (index f) = k.
Proof.
  induction l as [|g l IH]; simpl.
  - split; [by rewrite ?N.bits_0|]. intros (f & Hf & _).
    by apply elem_of_nil in Hf.
  - rewrite N.lor_spec, orb_true_iff, IH. unfold bit_flags.value.
    rewrite N.shiftl_1_l, N.pow2_bits_eqb, N.eqb_eq. split.
    + intros [Hg|(f & Hf & Hk)].
      * exists g. split; [apply list_elem_of_here|done].
      * exists f. split; [by apply list_elem_of_further|done].
    + intros (f & [->|Hf]%elem_of_cons & Hk); [by left|].
      right. by exists f.
Qed.

Lemma mask_has (l : list A) (f : A) :
  bit_flags.has (bit_flags.mask l) f = true ↔ f ∈ l.
Proof.
  rewrite has_testbit, mask_testbit. split.
  - intros (g & Hg & Hk). apply Nat2N.inj, index_inj in Hk. by subst.
  - intros Hf. by exists f.
Qed.

Lemma mask_bound (l : list A) : (bit_flags.mask l < 2 ^ N.of_nat bits)%N.
Proof.
  destruct (N.eq_dec (bit_flags.mask l) 0%N) as [->|Hne].
  { apply N.neq_0_lt_0, N.pow_nonzero. lia. }
  apply N.log2_lt_pow2; [lia|].
  destruct (N.lt_ge_cases (N.log2 (bit_flags.mask l)) (N.of_nat bits))
    as [|Hge]; [done|].
  pose proof (N.bit_log2 _ Hne) as Hbit.
  apply mask_testbit in Hbit as (f & _ & Hk).
  pose proof (index_bits f). lia.
Qed.

Lemma flags_faithful_of : flags_faithful A.
Proof.
  split; [apply value_inj|]. split; [apply mask_has | apply mask_bound].
Qed.

End bit_flags_proofs.

(** X18. In each of the five enums the schema declares [bit_flags], the
    names have pairwise different values; a flag is set in a combination of
    flags exactly when it is one of the flags combined; and every
    combination fits the underlying integer, 64 bits for [Feature],
    [RequestFlag], [ExecEnv] and [ExecFlag], 8 bits for [CallFlag]. *)
Theorem flag_sets_are_faithful :
  flags_faithful Feature.t
  ∧ flags_faithful RequestFlag.t
  ∧ flags_faithful ExecEnv.t
  ∧ flags_faithful ExecFlag.t
  ∧ flags_faithful CallFlag.t.
Proof.
  repeat split.
  all: try (apply value_inj; by intros [] []).
  all: try (apply mask_has; by intros [] []).
  all: apply mask_bound; intros []; simpl; lia.
Qed.

Example sandbox_none_differs :
  bit_flags.value Feature.SandboxNone = 16%N
  ∧ bit_flags.value ExecEnv.SandboxNone = 8%N.
Proof. done. Qed.
